(** * bgp-radar: a shallow embedding of the ingestion and detection pipeline

    The development follows the package layout of the Go sources:
    [strconv] and [strings] (the few standard-library routines the code
    relies on), [models], [detector], [rislive], [database] and [main].
    The first part holds the definitions, the second part the facts proved
    about them.

    Conventions.
    - Go's fixed-width integers are [Z] with the wrap-around written out.
    - A Go [string] is a byte sequence: Rocq's [string] (a list of 8-bit
      [ascii]) is used as is.
    - [map] values are stdpp [gmap]s, Redis sets are [gset]s.
    - [time.Now()] is an explicit argument [now] (nanoseconds, as in
      [time.Duration]).
    - A run-time panic (index out of range) is the [None] of an [option]. *)

From stdpp Require Import gmap strings list fin_maps.
From Stdlib Require Import Ascii ZArith QArith Lia.

Set Warnings "-register-all".
Local Open Scope Z_scope.

(** ** Machine integers *)

(** [uint32(x)] on an unsigned 64-bit value. *)
Definition to_uint32 (x : Z) : Z := x mod 2 ^ 32.

(** Arithmetic on Go's [int] (64 bits, two's complement). *)
Definition wrap_int (x : Z) : Z := (x + 2 ^ 63) mod 2 ^ 64 - 2 ^ 63.

(** Arithmetic on [byte]. *)
Definition wrap_byte (x : Z) : Z := x mod 256.

(** The numeric value of a byte of a string. *)
Definition byte_of (c : ascii) : Z := Z.of_N (N_of_ascii c).

Definition char_of (b : Z) : ascii := ascii_of_N (Z.to_N b).

(** [s[i]]: indexing a string panics when [i] is out of range. *)
Fixpoint string_index (s : string) (i : nat) : option Z :=
  match s, i with
  | EmptyString, _ => None
  | String c _, O => Some (byte_of c)
  | String _ r, S j => string_index r j
  end.


(** ** Package strconv *)

Module strconv.

Inductive NumError := ErrSyntax | ErrRange.

Definition maxUint64 : Z := 2 ^ 64 - 1.

(** [formatBits] for base 10: the digits are produced from the least
    significant one.  Twenty digits are enough for any [uint64]. *)
Fixpoint formatBits (fuel : nat) (u : Z) (acc : string) : string :=
  match fuel with
  | O => acc
  | S k =>
      if u <? 10 then String (char_of (48 + u)) acc
      else formatBits k (u / 10) (String (char_of (48 + u mod 10)) acc)
  end.

(** [strconv.FormatUint(u, 10)]. *)
Definition FormatUint (u : Z) : string := formatBits 20 u "".

(** The digit loop of [ParseUint] in base 10.  [n] is the [uint64]
    accumulator, [maxVal] is [1<<bitSize - 1]. *)
Fixpoint parseLoop (maxVal n : Z) (s : string) : Z * option NumError :=
  match s with
  | EmptyString => (n, None)
  | String c r =>
      let c := byte_of c in
      if (48 <=? c) && (c <=? 57) then
        let d := c - 48 in
        if maxUint64 / 10 + 1 <=? n then (maxVal, Some ErrRange)
        else
          let n10 := n * 10 in
          let n1 := (n10 + d) mod 2 ^ 64 in
          if (n1 <? n10) || (maxVal <? n1) then (maxVal, Some ErrRange)
          else parseLoop maxVal n1 r
      else (0, Some ErrSyntax)
  end.

(** [strconv.ParseUint(s, 10, bitSize)]: the value and the error. *)
Definition ParseUint (s : string) (bitSize : Z) : Z * option NumError :=
  match s with
  | EmptyString => (0, Some ErrSyntax)
  | _ => parseLoop (2 ^ bitSize - 1) 0 s
  end.



End strconv.

(** ** Package strings (on ASCII text)

    Bytes from 0x80 on, that is multi-byte UTF-8 text, are left as they
    are; the facts below that mention these functions are about ASCII
    input. *)

Module strings.







End strings.

(** ** Package models *)

Module models.

(** [time.Time], in nanoseconds. *)
Definition Time : Type := Z.

Record BGPUpdate := {
  Timestamp : Time;
  PeerASN : Z;
  Prefix : string;
  ASPath : list Z;
  OriginASN : Z;
  Communities : list string;
  Announcement : bool;
  Collector : string
}.

(** The dynamic values held by [map[string]interface{}].  The
    constructor records the Go type of the value, which is what a type
    assertion inspects. *)
Inductive value :=
| VString (s : string)
| VBool (b : bool)
| VUint32 (n : Z)
| VInt (n : Z)
| VFloat64 (q : Q)
| VStrings (l : list string)
| VUint32s (l : list Z)
| VValues (l : list value).

Record BGPEvent := {
  ID : string;
  CountryCode : string;
  EventType : string;
  Severity : string;
  EventCategory : string;
  RPKIStatus : string;
  IsCrossBorder : bool;
  AttackerCountry : string;
  VictimCountry : string;
  AffectedASN : Z;
  AffectedPrefix : string;
  Details : gmap string value;
  DetectedAt : Time;
  IsActive : bool
}.

Definition SeverityLow : string := "low".
Definition SeverityMedium : string := "medium".
Definition SeverityHigh : string := "high".
Definition SeverityCritical : string := "critical".

Definition EventTypeHijack : string := "hijack".
Definition EventTypeLeak : string := "leak".
Definition EventTypeBlackhole : string := "blackhole".

Definition CategoryAttack : string := "attack".
Definition CategoryDefense : string := "defense".
Definition CategoryMisconfiguration : string := "misconfiguration".

(** A composite literal that names only some fields: the others hold
    their zero value. *)
Definition event (ty sev cat : string) (asn : Z) (pfx : string)
    (now : Time) (details : gmap string value) : BGPEvent :=
  {| ID := ""; CountryCode := ""; EventType := ty; Severity := sev;
     EventCategory := cat; RPKIStatus := ""; IsCrossBorder := false;
     AttackerCountry := ""; VictimCountry := ""; AffectedASN := asn;
     AffectedPrefix := pfx; Details := details; DetectedAt := now;
     IsActive := true |}.

Definition with_country (e : BGPEvent) (cc : string) : BGPEvent :=
  {| ID := ID e; CountryCode := cc; EventType := EventType e;
     Severity := Severity e; EventCategory := EventCategory e;
     RPKIStatus := RPKIStatus e; IsCrossBorder := IsCrossBorder e;
     AttackerCountry := AttackerCountry e; VictimCountry := VictimCountry e;
     AffectedASN := AffectedASN e; AffectedPrefix := AffectedPrefix e;
     Details := Details e; DetectedAt := DetectedAt e;
     IsActive := IsActive e |}.

End models.

(** ** The external key-value store

    The part of Redis the hijack detector talks to: string values, sets,
    and key expiry.  A command that finds a value of the wrong kind fails,
    and the detector treats a failed command like a missing key.  The
    store answers every command; connection failures are not modelled. *)

Module redis.

Inductive entry :=
| Str (v : string)
| Members (s : gset string).

(** A key holds a value and, possibly, the instant at which it expires. *)
Record Client := { db : gmap string (entry * option models.Time) }.

Definition live (now : models.Time) (c : Client) (key : string) : option entry :=
  match db c !! key with
  | Some (e, None) => Some e
  | Some (e, Some expiry) => if now <? expiry then Some e else None
  | None => None
  end.

Definition expiry_of (now : models.Time) (c : Client) (key : string)
    : option models.Time :=
  match db c !! key with
  | Some (_, Some expiry) => if now <? expiry then Some expiry else None
  | _ => None
  end.

(** [GET key]: [None] is the error result ([redis.Nil] or a wrong kind). *)
Definition Get (now : models.Time) (c : Client) (key : string) : option string :=
  match live now c key with
  | Some (Str v) => Some v
  | _ => None
  end.

(** [SET key value EX ttl]. *)
Definition Set_ (now : models.Time) (c : Client) (key value : string)
    (ttl : Z) : Client :=
  {| db := <[key := (Str value, Some (now + ttl))]> (db c) |}.

(** [SISMEMBER key member], with [Val()] of a failed command being
    [false]. *)
Definition SIsMember (now : models.Time) (c : Client) (key member : string)
    : bool :=
  match live now c key with
  | Some (Members s) => bool_decide (member ∈ s)
  | _ => false
  end.

(** [SADD key member]. *)
Definition SAdd (now : models.Time) (c : Client) (key member : string)
    : Client :=
  match live now c key with
  | None => {| db := <[key := (Members {[member]}, None)]> (db c) |}
  | Some (Members s) =>
      {| db := <[key := (Members ({[member]} ∪ s), expiry_of now c key)]> (db c) |}
  | Some (Str _) => c
  end.

(** [EXPIRE key ttl]. *)
Definition Expire (now : models.Time) (c : Client) (key : string) (ttl : Z)
    : Client :=
  match live now c key with
  | Some e => {| db := <[key := (e, Some (now + ttl))]> (db c) |}
  | None => c
  end.

End redis.

(** [time.Duration] constants, in nanoseconds. *)
Module time.
Definition Second : Z := 1000000000.
Definition Minute : Z := 60 * Second.
Definition Hour : Z := 60 * Minute.
End time.

(** ** Package detector *)

Module detector.
Import models.

(** *** Reference tables (communities.go) *)

Definition Tier1ASNs : gmap Z string :=
  list_to_map
    [ (174, "Cogent Communications"); (209, "Lumen (CenturyLink)");
      (286, "KPN"); (701, "Verizon"); (1239, "Sprint"); (1299, "Telia");
      (1828, "Unitas Global"); (2914, "NTT America"); (3257, "GTT");
      (3320, "Deutsche Telekom"); (3356, "Lumen (Level3)");
      (3491, "PCCW Global"); (5511, "Orange");
      (6453, "Tata Communications"); (6461, "Zayo");
      (6762, "Telecom Italia Sparkle"); (6830, "Liberty Global");
      (6939, "Hurricane Electric"); (7018, "AT&T"); (12956, "Telefonica") ].

Definition ScrubbingASNs : gmap Z string :=
  list_to_map
    [ (198949, "Radware Ltd"); (48851, "Radware Ltd - Europe");
      (25773, "Radware Inc - US"); (15823, "Radware Ltd - Israel");
      (32787, "Akamai Prolexic"); (20940, "Akamai Technologies");
      (16625, "Akamai Technologies"); (21342, "Akamai Technologies");
      (35994, "Akamai Technologies"); (23454, "Akamai Technologies");
      (13335, "Cloudflare Inc"); (209242, "Cloudflare Inc");
      (394536, "Cloudflare Inc"); (395747, "Cloudflare Inc");
      (19551, "Incapsula Inc"); (62571, "Imperva Inc");
      (19905, "UltraDDoS Protect"); (12008, "Vercara UltraDNS");
      (397213, "Vercara LLC"); (57724, "DDoS-Guard LTD");
      (49612, "DDoS-Guard LTD"); (197068, "Qrator Labs");
      (3223, "Voxility LLP"); (34309, "Link11 GmbH"); (30148, "Sucuri");
      (20446, "StackPath ABC LLC"); (33438, "StackPath / Datum");
      (397031, "Path Network Inc"); (16509, "Amazon AWS Shield");
      (14618, "Amazon"); (8075, "Microsoft Azure DDoS");
      (396982, "Google Cloud Armor"); (15169, "Google") ].

Definition RFC7999Blackhole : string := "65535:666".

Definition ProviderBlackholeCommunities : gmap Z string :=
  list_to_map
    [ (3356, "3356:9999"); (1299, "1299:999"); (3491, "3491:999");
      (286, "286:66"); (2914, "2914:666"); (3257, "3257:666");
      (7018, "7018:666"); (6939, "6939:666"); (3320, "3320:666");
      (6453, "6453:666"); (6461, "6461:666"); (701, "701:666");
      (1239, "1239:666"); (12956, "12956:666"); (6762, "6762:666");
      (6830, "6830:666"); (9002, "9002:666"); (20804, "20804:666") ].

(** The table filled by [init()]. *)
Definition KnownBlackholeCommunities : gmap string bool :=
  map_fold (λ (_ : Z) (community : string) (known : gmap string bool),
              <[community := true]> known)
           (<[RFC7999Blackhole := true]> ∅)
           ProviderBlackholeCommunities.

(** [_, ok := m[k]]. *)
Definition has_key {V} (m : gmap Z V) (k : Z) : bool :=
  match m !! k with Some _ => true | None => false end.

Definition IsTier1 (asn : Z) : bool := has_key Tier1ASNs asn.

Definition IsScrubbing (asn : Z) : bool := has_key ScrubbingASNs asn.

(** Reading a [map[string]bool] gives [false] for a missing key. *)
Definition IsBlackholeCommunity (community : string) : bool :=
  default false (KnownBlackholeCommunities !! community).

Fixpoint HasBlackholeCommunity (communities : list string) : bool :=
  match communities with
  | [] => false
  | c :: rest => if IsBlackholeCommunity c then true else HasBlackholeCommunity rest
  end.

Fixpoint HasScrubbingCenter (asPath : list Z) : bool :=
  match asPath with
  | [] => false
  | asn :: rest => if IsScrubbing asn then true else HasScrubbingCenter rest
  end.

Fixpoint GetBlackholeCommunities (communities : list string) : list string :=
  match communities with
  | [] => []
  | c :: rest =>
      if IsBlackholeCommunity c then c :: GetBlackholeCommunities rest
      else GetBlackholeCommunities rest
  end.

(** *** getPrefixLength (blackhole.go) *)

(** The inner loop, [for j := i + 1; j < len(prefix); j++]; [todo] is
    [len(prefix) - j]. *)
Fixpoint digitsLoop (prefix : string) (todo j : nat) (length : Z) : option Z :=
  match todo with
  | O => Some length
  | S k =>
      c ← string_index prefix j;
      digitsLoop prefix k (S j) (wrap_int (length * 10 + wrap_byte (c - 48)))
  end.

(** The outer loop, [for i := len(prefix) - 1; i >= 0; i--]; [n] is
    [i + 1]. *)
Fixpoint slashLoop (prefix : string) (n : nat) : option Z :=
  match n with
  | O => Some 32
  | S i =>
      c ← string_index prefix i;
      if c =? 47 then digitsLoop prefix (String.length prefix - S i) (S i) 0
      else slashLoop prefix i
  end.

Definition getPrefixLength (prefix : string) : option Z :=
  slashLoop prefix (String.length prefix).

(** The events a [Process] call hands to the events channel.  The send
    is non-blocking: what the channel does with an event when it is full
    is the queue's business, not the detector's. *)
Definition emitted : Type := list BGPEvent.

(** *** BlackholeDetector (blackhole.go) *)

Module BlackholeDetector.

Definition confidence_of (isHostRoute : bool) (prefixLen : Z) : Q :=
  if isHostRoute then 0.95%Q
  else if 24 <=? prefixLen then 0.85%Q
  else 0.6%Q.

Definition severity_of (isHostRoute : bool) (prefixLen : Z) : string :=
  if isHostRoute then SeverityMedium
  else if prefixLen <? 16 then SeverityHigh
  else SeverityMedium.

Definition Process (now : Time) (update : BGPUpdate) : option emitted :=
  if negb (Announcement update) then Some []
  else if negb (HasBlackholeCommunity (Communities update)) then Some []
  else
    let blackholeCommunities := GetBlackholeCommunities (Communities update) in
    prefixLen ← getPrefixLength (Prefix update);
    let isHostRoute := (prefixLen =? 32) || (prefixLen =? 128) in
    let confidence := confidence_of isHostRoute prefixLen in
    let severity := severity_of isHostRoute prefixLen in
    Some [ event EventTypeBlackhole severity CategoryDefense
             (OriginASN update) (Prefix update) now
             (list_to_map
                [ ("communities", VStrings (Communities update));
                  ("blackhole_communities", VStrings blackholeCommunities);
                  ("as_path", VUint32s (ASPath update));
                  ("peer_asn", VUint32 (PeerASN update));
                  ("collector", VString (Collector update));
                  ("signal", VString "blackhole_community");
                  ("is_host_route", VBool isHostRoute);
                  ("confidence", VFloat64 confidence) ]) ].

End BlackholeDetector.

(** *** LeakDetector (leak.go) *)

Module LeakDetector.

(** [for i := 0; i < len(asPath)-2; i++]; [todo] is
    [len(asPath) - 2 - i]. *)
Fixpoint leakLoop (asPath : list Z) (todo i : nat) : option (Z * Z * Z) :=
  match todo with
  | O => Some (0, 0, 0)
  | S k =>
      asn1 ← asPath !! i;
      asn2 ← asPath !! (i + 1)%nat;
      asn3 ← asPath !! (i + 2)%nat;
      if IsTier1 asn1 && IsTier1 asn3 && negb (IsTier1 asn2) then
        if negb (IsScrubbing asn2) then Some (asn2, asn1, asn3)
        else leakLoop asPath k (S i)
      else leakLoop asPath k (S i)
  end.

Definition findLeakPattern (asPath : list Z) : option (Z * Z * Z) :=
  leakLoop asPath (length asPath - 2) 0.

Definition Process (now : Time) (update : BGPUpdate) : option emitted :=
  if negb (Announcement update) || (Z.of_nat (length (ASPath update)) <? 3)
  then Some []
  else
    '(leakASN, tier1Before, tier1After) ← findLeakPattern (ASPath update);
    if leakASN =? 0 then Some []
    else
      Some [ event EventTypeLeak SeverityHigh CategoryMisconfiguration
               leakASN (Prefix update) now
               (list_to_map
                  [ ("pattern", VString "tier1_transit_leak");
                    ("leaking_asn", VUint32 leakASN);
                    ("upstream_tier1", VUint32 tier1Before);
                    ("downstream_tier1", VUint32 tier1After);
                    ("as_path", VUint32s (ASPath update));
                    ("peer_asn", VUint32 (PeerASN update));
                    ("collector", VString (Collector update));
                    ("confidence", VFloat64 0.85%Q) ]) ].

End LeakDetector.

(** *** HijackDetector (hijack.go) *)

Module HijackDetector.

(** The detector's state: the client of the external store ([None]
    when there is none), the local cache and its time stamps. *)
Record t := {
  redis : option redis.Client;
  cache : gmap string Z;
  cacheTime : gmap string Time;
  cacheTTL : Z
}.

Definition NewHijackDetector (redisClient : option redis.Client) : t :=
  {| redis := redisClient; cache := ∅; cacheTime := ∅;
     cacheTTL := 5 * time.Minute |}.

Definition originKey (prefix : string) : string :=
  "bgp:prefix:" +:+ prefix +:+ ":origin".

Definition originsKey (prefix : string) : string :=
  "bgp:prefix:" +:+ prefix +:+ ":origins".

(** [cache.Store] followed by [cacheTime.Store]. *)
Definition store (d : t) (now : Time) (prefix : string) (origin : Z) : t :=
  {| redis := redis d;
     cache := <[prefix := origin]> (cache d);
     cacheTime := <[prefix := now]> (cacheTime d);
     cacheTTL := cacheTTL d |}.

Definition with_redis (d : t) (c : redis.Client) : t :=
  {| redis := Some c; cache := cache d; cacheTime := cacheTime d;
     cacheTTL := cacheTTL d |}.

(** The local cache, when it holds a fresh entry. *)
Definition cached (d : t) (now : Time) (prefix : string) : option Z :=
  match cache d !! prefix with
  | Some val =>
      match cacheTime d !! prefix with
      | Some t0 => if now - t0 <? cacheTTL d then Some val else None
      | None => None
      end
  | None => None
  end.

(** [redis.Get(key).Uint64()]: [None] when either step fails. *)
Definition getUint64 (now : Time) (c : redis.Client) (key : string) : option Z :=
  match redis.Get now c key with
  | Some s =>
      match strconv.ParseUint s 64 with
      | (val, None) => Some val
      | (_, Some _) => None
      end
  | None => None
  end.

Definition getKnownOrigin (d : t) (now : Time) (prefix : string) : Z * t :=
  match cached d now prefix with
  | Some val => (val, d)
  | None =>
      match redis d with
      | Some c =>
          match getUint64 now c (originKey prefix) with
          | Some val =>
              let origin := to_uint32 val in
              (origin, store d now prefix origin)
          | None => (0, d)
          end
      | None => (0, d)
      end
  end.

Definition setKnownOrigin (d : t) (now : Time) (prefix : string)
    (origin : Z) : t :=
  let d := store d now prefix origin in
  match redis d with
  | Some c =>
      with_redis d
        (redis.Set_ now c (originKey prefix) (strconv.FormatUint origin)
           (48 * time.Hour))
  | None => d
  end.

Definition isKnownMOAS (d : t) (now : Time) (prefix : string)
    (origin : Z) : bool :=
  match redis d with
  | None => false
  | Some c =>
      redis.SIsMember now c (originsKey prefix) (strconv.FormatUint origin)
  end.

Definition addKnownMOAS (d : t) (now : Time) (prefix : string)
    (origin : Z) : t :=
  match redis d with
  | None => d
  | Some c =>
      let key := originsKey prefix in
      let c := redis.SAdd now c key (strconv.FormatUint origin) in
      with_redis d (redis.Expire now c key (48 * time.Hour))
  end.

Definition severity_of (knownOrigin : Z) (update : BGPUpdate) : option string :=
  if IsTier1 knownOrigin || IsTier1 (OriginASN update) then Some SeverityCritical
  else
    prefixLen ← getPrefixLength (Prefix update);
    if prefixLen <? 16 then Some SeverityHigh else Some SeverityMedium.

Definition confidence_of (severity : string) : Q :=
  if String.eqb severity SeverityCritical then 0.9%Q
  else if String.eqb severity SeverityHigh then 0.8%Q
  else 0.7%Q.

Definition flags_of (severity : string) : list string :=
  let flags := ["origin_change"] in
  if String.eqb severity SeverityCritical then flags ++ ["tier1_involved"]
  else if String.eqb severity SeverityHigh then flags ++ ["large_prefix"]
  else flags.

Definition Process (d : t) (now : Time) (update : BGPUpdate)
    : option (t * emitted) :=
  if negb (Announcement update) || (OriginASN update =? 0) then Some (d, [])
  else if HasScrubbingCenter (ASPath update) then Some (d, [])
  else
    let '(knownOrigin, d) := getKnownOrigin d now (Prefix update) in
    if knownOrigin =? 0 then
      Some (setKnownOrigin d now (Prefix update) (OriginASN update), [])
    else if knownOrigin =? OriginASN update then Some (d, [])
    else if isKnownMOAS d now (Prefix update) (OriginASN update) then Some (d, [])
    else
      severity ← severity_of knownOrigin update;
      let confidence := confidence_of severity in
      let flags := flags_of severity in
      let event :=
        event EventTypeHijack severity CategoryAttack knownOrigin
          (Prefix update) now
          (list_to_map
             [ ("original_origin", VUint32 knownOrigin);
               ("hijacking_asn", VUint32 (OriginASN update));
               ("as_path", VUint32s (ASPath update));
               ("peer_asn", VUint32 (PeerASN update));
               ("collector", VString (Collector update));
               ("flags", VStrings flags);
               ("confidence", VFloat64 confidence) ]) in
      Some (addKnownMOAS d now (Prefix update) (OriginASN update), [event]).

(** Feeding a sequence of time-stamped updates to one detector. *)
Fixpoint run (d : t) (updates : list (Time * BGPUpdate))
    : option (t * list emitted) :=
  match updates with
  | [] => Some (d, [])
  | (now, update) :: rest =>
      '(d, out) ← Process d now update;
      '(d, outs) ← run d rest;
      Some (d, out :: outs)
  end.

End HijackDetector.

End detector.

(** ** Package database (resolver.go) *)

Module database.

(** The [CountryResolver] interface, without its life-cycle methods. *)
Class CountryResolver (R : Type) := {
  Resolve : R → Z → string;
  ResolveFromPath : R → list Z → string;
  Count : R → Z
}.

Inductive NullResolver := null_resolver.

#[export] Instance NullResolver_resolver : CountryResolver NullResolver := {
  Resolve _ _ := "";
  ResolveFromPath _ _ := "";
  Count _ := 0
}.

(** [m[asn]] on a [map[int]string]. *)
Definition country_at (mapping : gmap Z string) (asn : Z) : string :=
  default "" (mapping !! asn).

Fixpoint first_country (mapping : gmap Z string) (asPath : list Z) : string :=
  match asPath with
  | [] => ""
  | asn :: rest =>
      match mapping !! asn with
      | Some country => country
      | None => first_country mapping rest
      end
  end.

Record FileResolver := { mapping : gmap Z string }.

#[export] Instance FileResolver_resolver : CountryResolver FileResolver := {
  Resolve r asn := country_at (mapping r) asn;
  ResolveFromPath r asPath := first_country (mapping r) asPath;
  Count r := Z.of_nat (size (mapping r))
}.

Record DatabaseResolver := { db_mapping : gmap Z string }.

#[export] Instance DatabaseResolver_resolver : CountryResolver DatabaseResolver := {
  Resolve r asn := country_at (db_mapping r) asn;
  ResolveFromPath r asPath := first_country (db_mapping r) asPath;
  Count r := Z.of_nat (size (db_mapping r))
}.





End database.

(** ** Package main: the event sink (main.go) *)

Module main.
Import models database.

(** [int(f)] for a [float64] in range: truncation towards zero. *)
Definition int_of_float (q : Q) : Z := Z.quot (Qnum q) (Z.pos (Qden q)).

(** The loop that builds [intPath] from a [[]interface{}]. *)
Fixpoint intPath (asPath : list value) : list Z :=
  match asPath with
  | [] => []
  | VFloat64 f :: rest => int_of_float f :: intPath rest
  | VInt i :: rest => i :: intPath rest
  | _ :: rest => intPath rest
  end.

(** The country code the sink gives to an event. *)
Definition resolveCountry {R} `{CountryResolver R} (resolver : R)
    (event : BGPEvent) : string :=
  let cc := CountryCode event in
  let cc :=
    if String.eqb cc "" then
      let cc :=
        if 0 <? AffectedASN event then Resolve resolver (AffectedASN event)
        else cc in
      if String.eqb cc "" then
        match Details event !! "as_path" with
        | Some (VValues asPath) => ResolveFromPath resolver (intPath asPath)
        | _ => cc
        end
      else cc
    else cc in
  if String.eqb cc "" then "XX" else cc.

(** One turn of the sink's loop: the event as it is logged and handed
    to the database writer. *)
Definition sink {R} `{CountryResolver R} (resolver : R) (event : BGPEvent)
    : BGPEvent :=
  with_country event (resolveCountry resolver event).

End main.

(** ** Package encoding/json, as far as the parser uses it

    A frame is a JSON document.  A number keeps the text of its literal,
    which is what [Unmarshal] hands to [strconv]; an object maps each
    member name, spelled as in the struct tags, to one value.  Text that
    is not JSON never reaches the decoders below. *)

Module json.

Inductive value :=
| Null
| Bool (b : bool)
| Number (lit : string)
| Str (s : string)
| Array (elems : list value)
| Object (members : gmap string value).

(** [json.RawMessage]: [None] is the [nil] message of an absent member. *)
Definition RawMessage : Type := option value.

(** The binary64 numbers and the two operations the parser applies to
    them: reading a literal, and the conversion of a Unix time stamp
    [time.Unix(int64(ts), int64((ts - float64(int64(ts))) * 1e9))]. *)
Class Float64Ops := {
  float64 : Type;
  float64_zero : float64;
  ParseFloat : string → option float64;
  unixTime : float64 → models.Time
}.

(** [Unmarshal] into a fresh variable of the given type; [None] is an
    error.  [null] leaves the zero value in place. *)

Definition unmarshal_uint32 (v : value) : option Z :=
  match v with
  | Null => Some 0
  | Number lit =>
      match strconv.ParseUint lit 64 with
      | (n, None) => if n <=? 2 ^ 32 - 1 then Some n else None
      | (_, Some _) => None
      end
  | _ => None
  end.

Definition unmarshal_string (v : value) : option string :=
  match v with
  | Null => Some ""
  | Str s => Some s
  | _ => None
  end.

Definition unmarshal_float64 `{Float64Ops} (v : value) : option float64 :=
  match v with
  | Null => Some float64_zero
  | Number lit => ParseFloat lit
  | _ => None
  end.

(** A slice: every element has to decode. *)
Definition unmarshal_slice {A} (elem : value → option A) (v : value)
    : option (list A) :=
  match v with
  | Null => Some []
  | Array elems => mapM elem elems
  | _ => None
  end.

(** A member of a struct: an absent member leaves the zero value. *)
Definition member {A} (decode : value → option A) (zero : A)
    (members : gmap string value) (name : string) : option A :=
  match members !! name with
  | Some v => decode v
  | None => Some zero
  end.

End json.

(** ** Package rislive (parser.go) *)

Module rislive.
Import models.

Record RISMessage := {
  Type_ : string;
  Data : json.RawMessage
}.

Record RISAnnouncement := { Prefixes : list string }.

Record RISUpdateData `{json.Float64Ops} := {
  Timestamp : json.float64;
  PeerASN : json.RawMessage;
  Path : json.RawMessage;
  Announcements : list RISAnnouncement;
  Withdrawals : list string;
  Community : list json.value
}.

(** [json.Unmarshal(data, &msg)]. *)
Definition unmarshal_RISMessage (data : json.value) : option RISMessage :=
  match data with
  | json.Null => Some {| Type_ := ""; Data := None |}
  | json.Object members =>
      ty ← json.member json.unmarshal_string "" members "type";
      Some {| Type_ := ty; Data := members !! "data" |}
  | _ => None
  end.

Definition unmarshal_RISAnnouncement (v : json.value) : option RISAnnouncement :=
  match v with
  | json.Null => Some {| Prefixes := [] |}
  | json.Object members =>
      prefixes ← json.member (json.unmarshal_slice json.unmarshal_string) []
                   members "prefixes";
      Some {| Prefixes := prefixes |}
  | _ => None
  end.

(** [json.Unmarshal(msg.Data, &updateData)]; a [nil] message is an
    error (unexpected end of input). *)
Definition unmarshal_RISUpdateData `{json.Float64Ops} (data : json.RawMessage)
    : option RISUpdateData :=
  match data with
  | None => None
  | Some json.Null =>
      Some {| Timestamp := json.float64_zero; PeerASN := None; Path := None;
              Announcements := []; Withdrawals := []; Community := [] |}
  | Some (json.Object members) =>
      timestamp ← json.member json.unmarshal_float64 json.float64_zero
                    members "timestamp";
      announcements ← json.member (json.unmarshal_slice unmarshal_RISAnnouncement)
                        [] members "announcements";
      withdrawals ← json.member (json.unmarshal_slice json.unmarshal_string)
                      [] members "withdrawals";
      community ← json.member (json.unmarshal_slice Some) [] members "community";
      Some {| Timestamp := timestamp;
              PeerASN := members !! "peer_asn";
              Path := members !! "path";
              Announcements := announcements;
              Withdrawals := withdrawals;
              Community := community |}
  | Some _ => None
  end.

Definition parseASN (data : json.RawMessage) : Z :=
  match data with
  | None => 0
  | Some v =>
      match json.unmarshal_uint32 v with
      | Some num => num
      | None =>
          match json.unmarshal_string v with
          | Some str => to_uint32 (fst (strconv.ParseUint str 32))
          | None => 0
          end
      end
  end.

(** The loop of [parseASPath] over the elements of a mixed array. *)
Fixpoint flattenPath (mixedArray : list json.value) (result : list Z) : list Z :=
  match mixedArray with
  | [] => result
  | elem :: rest =>
      match json.unmarshal_uint32 elem with
      | Some num => flattenPath rest (result ++ [num])
      | None =>
          match json.unmarshal_slice json.unmarshal_uint32 elem with
          | Some nums => flattenPath rest (result ++ nums)
          | None => flattenPath rest result
          end
      end
  end.

(** [None] is the error return. *)
Definition parseASPath (data : json.RawMessage) : option (list Z) :=
  match data with
  | None => Some []
  | Some v =>
      match json.unmarshal_slice json.unmarshal_uint32 v with
      | Some simpleArray => Some simpleArray
      | None =>
          mixedArray ← json.unmarshal_slice Some v;
          Some (flattenPath mixedArray [])
      end
  end.

Fixpoint communitiesLoop (data : list json.value) (result : list string)
    : list string :=
  match data with
  | [] => result
  | elem :: rest =>
      match json.unmarshal_slice json.unmarshal_uint32 elem with
      | Some [asn; val] =>
          communitiesLoop rest
            (result ++ [strconv.FormatUint asn +:+ ":" +:+ strconv.FormatUint val])
      | _ =>
          match json.unmarshal_string elem with
          | Some str => communitiesLoop rest (result ++ [str])
          | None => communitiesLoop rest result
          end
      end
  end.

Definition parseCommunities (data : list json.value) : list string :=
  communitiesLoop data [].

(** The two nested loops over the announcements: they return at the
    first prefix they meet. *)
Fixpoint firstPrefix (announcements : list RISAnnouncement) : option string :=
  match announcements with
  | [] => None
  | ann :: rest =>
      match Prefixes ann with
      | prefix :: _ => Some prefix
      | [] => firstPrefix rest
      end
  end.

(** The three outcomes of [ParseMessage]: an error, [nil, nil], or an
    update. *)
Inductive parsed :=
| Failed (what : string)
| Nothing
| Update (update : BGPUpdate).

Definition ParseMessage `{json.Float64Ops} (data : json.value)
    (collector : string) : parsed :=
  match unmarshal_RISMessage data with
  | None => Failed "unmarshal message"
  | Some msg =>
      if negb (String.eqb (Type_ msg) "ris_message") then Nothing
      else
        match unmarshal_RISUpdateData (Data msg) with
        | None => Failed "unmarshal update data"
        | Some updateData =>
            let peerASN := parseASN (PeerASN updateData) in
            match parseASPath (Path updateData) with
            | None => Failed "parse AS path"
            | Some asPath =>
                let originASN := List.last asPath 0 in
                let communities := parseCommunities (Community updateData) in
                let timestamp := json.unixTime (Timestamp updateData) in
                match firstPrefix (Announcements updateData) with
                | Some prefix =>
                    Update {| models.Timestamp := timestamp;
                              models.PeerASN := peerASN;
                              Prefix := prefix;
                              ASPath := asPath;
                              OriginASN := originASN;
                              Communities := communities;
                              Announcement := true;
                              Collector := collector |}
                | None =>
                    match Withdrawals updateData with
                    | prefix :: _ =>
                        Update {| models.Timestamp := timestamp;
                                  models.PeerASN := peerASN;
                                  Prefix := prefix;
                                  ASPath := [];
                                  OriginASN := 0;
                                  Communities := [];
                                  Announcement := false;
                                  Collector := collector |}
                    | [] => Nothing
                    end
                end
            end
        end
  end.

End rislive.

(** * Facts *)

(** ** Bytes and decimal text *)

Lemma byte_of_char_of (b : Z) : 0 <= b < 256 → byte_of (char_of b) = b.
Proof.
  intros Hb. unfold byte_of, char_of.
  rewrite N_ascii_embedding by lia. lia.
Qed.

Lemma byte_of_range (c : ascii) : 0 <= byte_of c < 256.
Proof.
  unfold byte_of. pose proof (N_ascii_bounded c). lia.
Qed.

Lemma string_index_is_Some (s : string) (i : nat) :
  (i < String.length s)%nat → is_Some (string_index s i).
Proof.
  revert i. induction s as [|c s IH]; intros i Hi; simpl in *; [lia|].
  destruct i as [|j]; [by eexists|]. apply IH. lia.
Qed.

Lemma string_index_app_r (a b : string) (i : nat) :
  string_index (a +:+ b) (String.length a + i) = string_index b i.
Proof. induction a as [|c a IH]; simpl; [done|apply IH]. Qed.

Lemma string_length_app (a b : string) :
  String.length (a +:+ b) = (String.length a + String.length b)%nat.
Proof. induction a as [|c a IH]; simpl; [done|by rewrite IH]. Qed.

Module strconv_facts.
Import strconv.

(** A string of decimal digits. *)
Fixpoint all_digits (s : string) : bool :=
  match s with
  | EmptyString => true
  | String c r => (48 <=? byte_of c) && (byte_of c <=? 57) && all_digits r
  end.

Lemma parseLoop_digit (maxVal n d : Z) (r : string) :
  0 <= d <= 9 → 0 <= n → n * 10 + d <= maxVal → maxVal < 2 ^ 64 →
  parseLoop maxVal n (String (char_of (48 + d)) r) = parseLoop maxVal (n * 10 + d) r.
Proof.
  intros Hd Hn Hle Hmax. cbn [parseLoop].
  rewrite byte_of_char_of by lia.
  replace ((48 <=? 48 + d) && (48 + d <=? 57)) with true
    by (symmetry; apply andb_true_iff; split; apply Z.leb_le; lia).
  cbv zeta.
  replace (48 + d - 48) with d by lia.
  assert (Hcut : (maxUint64 / 10 + 1 <=? n) = false).
  { apply Z.leb_gt. unfold maxUint64.
    assert (n * 10 < 2 ^ 64) by lia.
    change (2 ^ 64 - 1) with 18446744073709551615 in *.
    change (2 ^ 64) with 18446744073709551616 in *.
    change (18446744073709551615 / 10) with 1844674407370955161. lia. }
  rewrite Hcut.
  rewrite (Z.mod_small (n * 10 + d)) by lia.
  replace (n * 10 + d <? n * 10) with false by (symmetry; apply Z.ltb_ge; lia).
  replace (maxVal <? n * 10 + d) with false by (symmetry; apply Z.ltb_ge; lia).
  done.
Qed.

Lemma parseLoop_formatBits (fuel : nat) :
  ∀ (u maxVal : Z) (acc : string),
    0 <= u < 10 ^ Z.of_nat fuel → u <= maxVal → maxVal < 2 ^ 64 →
    parseLoop maxVal 0 (formatBits fuel u acc) = parseLoop maxVal u acc.
Proof.
  induction fuel as [|k IH]; intros u maxVal acc Hu Hle Hmax.
  - simpl in *. by replace u with 0 by lia.
  - cbn [formatBits]. destruct (u <? 10) eqn:Hlt.
    + apply Z.ltb_lt in Hlt.
      rewrite (parseLoop_digit maxVal 0 u) by lia. done.
    + apply Z.ltb_ge in Hlt.
      assert (Hk : 0 <= u / 10 < 10 ^ Z.of_nat k).
      { split; [apply Z.div_pos; lia|].
        apply Z.div_lt_upper_bound; [lia|].
        rewrite Nat2Z.inj_succ, Z.pow_succ_r in Hu by lia. lia. }
      pose proof (Z.div_mod u 10 ltac:(lia)) as Hdm.
      pose proof (Z.mod_pos_bound u 10 ltac:(lia)) as Hm.
      rewrite IH by lia.
      rewrite (parseLoop_digit maxVal (u / 10) (u mod 10)) by lia.
      f_equal. lia.
Qed.

Lemma formatBits_nonempty (fuel : nat) :
  ∀ (u : Z) (acc : string),
    (0 < fuel)%nat ∨ acc ≠ EmptyString → formatBits fuel u acc ≠ EmptyString.
Proof.
  induction fuel as [|k IH]; intros u acc H; simpl.
  - destruct H; [lia|done].
  - destruct (u <? 10); [done|]. apply IH. by right.
Qed.

Lemma formatBits_digits (fuel : nat) :
  ∀ (u : Z) (acc : string),
    0 <= u → all_digits acc = true → all_digits (formatBits fuel u acc) = true.
Proof.
  induction fuel as [|k IH]; intros u acc Hu Hacc; simpl; [done|].
  destruct (u <? 10) eqn:Hlt.
  - apply Z.ltb_lt in Hlt. simpl. rewrite byte_of_char_of by lia.
    rewrite Hacc. rewrite andb_true_r. apply andb_true_iff.
    split; apply Z.leb_le; lia.
  - apply IH; [apply Z.div_pos; lia|].
    pose proof (Z.mod_pos_bound u 10 ltac:(lia)).
    simpl. rewrite byte_of_char_of by lia. rewrite Hacc, andb_true_r.
    apply andb_true_iff. split; apply Z.leb_le; lia.
Qed.

(** The first digit of a positive number is not a zero. *)
Lemma formatBits_no_padding (fuel : nat) :
  ∀ (u : Z) (acc : string),
    0 < u < 10 ^ Z.of_nat fuel →
    ∃ c r, formatBits fuel u acc = String c r ∧ byte_of c ≠ 48.
Proof.
  induction fuel as [|k IH]; intros u acc Hu.
  - simpl in Hu. lia.
  - cbn [formatBits]. destruct (u <? 10) eqn:Hlt.
    + apply Z.ltb_lt in Hlt. eexists _, _. split; [done|].
      rewrite byte_of_char_of by lia. lia.
    + apply Z.ltb_ge in Hlt. apply IH.
      rewrite Nat2Z.inj_succ, Z.pow_succ_r in Hu by lia.
      split; [apply Z.div_str_pos; lia|].
      apply Z.div_lt_upper_bound; lia.
Qed.

Lemma ParseUint_FormatUint (u bitSize : Z) :
  0 <= u < 2 ^ bitSize → 0 <= bitSize <= 64 →
  ParseUint (FormatUint u) bitSize = (u, None).
Proof.
  intros Hu Hbits. unfold ParseUint, FormatUint.
  assert (Hpow : 2 ^ bitSize <= 2 ^ 64) by (apply Z.pow_le_mono_r; lia).
  pose proof (formatBits_nonempty 20 u "" ltac:(left; lia)) as Hne.
  destruct (formatBits 20 u "") eqn:Hfmt; [done|].
  rewrite <- Hfmt.
  rewrite parseLoop_formatBits; [done| |lia|lia].
  change (2 ^ 64) with 18446744073709551616 in Hpow.
  change (10 ^ Z.of_nat 20) with 100000000000000000000. lia.
Qed.

Lemma FormatUint_inj (u v : Z) :
  0 <= u < 2 ^ 64 → 0 <= v < 2 ^ 64 → FormatUint u = FormatUint v → u = v.
Proof.
  intros Hu Hv Heq.
  pose proof (ParseUint_FormatUint u 64 Hu ltac:(lia)) as H1.
  pose proof (ParseUint_FormatUint v 64 Hv ltac:(lia)) as H2.
  rewrite Heq in H1. congruence.
Qed.

End strconv_facts.

(** ** getPrefixLength *)

Module prefix_facts.
Import detector strconv strconv_facts.

Lemma wrap_int_range (x : Z) : - 2 ^ 63 <= wrap_int x < 2 ^ 63.
Proof.
  unfold wrap_int. pose proof (Z.mod_pos_bound (x + 2 ^ 63) (2 ^ 64)). lia.
Qed.

Lemma wrap_int_small (x : Z) : - 2 ^ 63 <= x < 2 ^ 63 → wrap_int x = x.
Proof. intros Hx. unfold wrap_int. rewrite Z.mod_small; lia. Qed.

(** Every index the two loops use is in range. *)
Lemma digitsLoop_total (prefix : string) :
  ∀ (todo j : nat) (length : Z),
    (j + todo <= String.length prefix)%nat →
    ∃ p, digitsLoop prefix todo j length = Some p ∧ (todo = O ∨ - 2 ^ 63 <= p < 2 ^ 63).
Proof.
  induction todo as [|k IH]; intros j length Hj; simpl.
  - eexists. split; [done|by left].
  - destruct (string_index_is_Some prefix j ltac:(lia)) as [c Hc].
    rewrite Hc. simpl.
    destruct (IH (S j) (wrap_int (length * 10 + wrap_byte (c - 48))) ltac:(lia))
      as (p & Hp & Hr).
    exists p. split; [done|]. right.
    destruct Hr as [->|Hr]; [|done].
    simpl in Hp. injection Hp as <-. apply wrap_int_range.
Qed.

Lemma slashLoop_total (prefix : string) :
  ∀ n : nat, (n <= String.length prefix)%nat →
    ∃ p, slashLoop prefix n = Some p ∧ - 2 ^ 63 <= p < 2 ^ 63.
Proof.
  induction n as [|i IH]; intros Hn; simpl.
  - exists 32. split; [done|lia].
  - destruct (string_index_is_Some prefix i ltac:(lia)) as [c Hc].
    rewrite Hc. simpl. destruct (c =? 47).
    + destruct (digitsLoop_total prefix (String.length prefix - S i) (S i) 0
                  ltac:(lia)) as (p & Hp & Hr).
      exists p. split; [done|].
      destruct Hr as [Hz|Hr]; [|done].
      rewrite Hz in Hp. simpl in Hp. injection Hp as <-. lia.
    + apply IH. lia.
Qed.

Lemma getPrefixLength_total (prefix : string) :
  ∃ p, getPrefixLength prefix = Some p ∧ - 2 ^ 63 <= p < 2 ^ 63.
Proof. apply slashLoop_total. done. Qed.

(** A string without a slash. *)
Definition no_slash (s : string) : Prop :=
  ∀ i : nat, string_index s i ≠ Some 47.

Lemma slashLoop_no_slash (prefix : string) :
  no_slash prefix →
  ∀ n : nat, (n <= String.length prefix)%nat → slashLoop prefix n = Some 32.
Proof.
  intros Hno. induction n as [|i IH]; intros Hn; simpl; [done|].
  destruct (string_index_is_Some prefix i ltac:(lia)) as [c Hc].
  rewrite Hc. simpl.
  destruct (c =? 47) eqn:Hs.
  - apply Z.eqb_eq in Hs. subst c. by destruct (Hno i).
  - apply IH. lia.
Qed.

Lemma getPrefixLength_no_slash (prefix : string) :
  no_slash prefix → getPrefixLength prefix = Some 32.
Proof. intros Hno. by apply slashLoop_no_slash. Qed.

(** The value the inner loop computes, read off the text after the
    slash. *)
Fixpoint digitsFold (s : string) (length : Z) : Z :=
  match s with
  | EmptyString => length
  | String c r => digitsFold r (wrap_int (length * 10 + wrap_byte (byte_of c - 48)))
  end.

Lemma digitsLoop_fold (prefix : string) :
  ∀ (d : string) (j : nat) (length : Z),
    (∀ i, (i < String.length d)%nat →
          string_index prefix (j + i) = string_index d i) →
    digitsLoop prefix (String.length d) j length = Some (digitsFold d length).
Proof.
  induction d as [|c d IH]; intros j length Hd; simpl; [done|].
  pose proof (Hd O ltac:(simpl; lia)) as H0.
  rewrite Nat.add_0_r in H0. rewrite H0. simpl.
  apply IH. intros i Hi.
  specialize (Hd (S i) ltac:(simpl; lia)).
  by rewrite Nat.add_succ_r in Hd.
Qed.

Lemma digitsFold_digit (d n : Z) (r : string) :
  0 <= d <= 9 → 0 <= n → n * 10 + d < 2 ^ 63 →
  digitsFold (String (char_of (48 + d)) r) n = digitsFold r (n * 10 + d).
Proof.
  intros Hd Hn Hlt. simpl. rewrite byte_of_char_of by lia.
  unfold wrap_byte. replace (48 + d - 48) with d by lia.
  rewrite (Z.mod_small d) by lia.
  rewrite wrap_int_small by lia. done.
Qed.

Lemma digitsFold_formatBits (fuel : nat) :
  ∀ (u : Z) (acc : string),
    0 <= u < 10 ^ Z.of_nat fuel → u < 2 ^ 63 →
    digitsFold (formatBits fuel u acc) 0 = digitsFold acc u.
Proof.
  induction fuel as [|k IH]; intros u acc Hu Hlt.
  - simpl in *. by replace u with 0 by lia.
  - cbn [formatBits]. destruct (u <? 10) eqn:H10.
    + apply Z.ltb_lt in H10. by rewrite digitsFold_digit by lia.
    + apply Z.ltb_ge in H10.
      pose proof (Z.div_mod u 10 ltac:(lia)) as Hdm.
      pose proof (Z.mod_pos_bound u 10 ltac:(lia)) as Hm.
      assert (Hk : 0 <= u / 10 < 10 ^ Z.of_nat k).
      { split; [apply Z.div_pos; lia|].
        apply Z.div_lt_upper_bound; [lia|].
        rewrite Nat2Z.inj_succ, Z.pow_succ_r in Hu by lia. lia. }
      rewrite IH by lia.
      rewrite digitsFold_digit by lia. f_equal. lia.
Qed.

Lemma all_digits_index (d : string) :
  all_digits d = true →
  ∀ (i : nat) (c : Z), string_index d i = Some c → 48 <= c <= 57.
Proof.
  induction d as [|a d IH]; intros Hd i c Hi; simpl in *; [done|].
  apply andb_true_iff in Hd as [Ha Hd].
  apply andb_true_iff in Ha as [Ha1 Ha2].
  destruct i as [|i]; [|by eapply IH].
  injection Hi as <-. apply Z.leb_le in Ha1, Ha2. lia.
Qed.

(** The loop from the end of the text skips the digits. *)
Lemma slashLoop_skip_digits (addr d : string) :
  all_digits d = true →
  ∀ k : nat, (k <= String.length d)%nat →
    slashLoop (addr +:+ "/" +:+ d) (String.length addr + 1 + k)
    = slashLoop (addr +:+ "/" +:+ d) (String.length addr + 1).
Proof.
  intros Hd. induction k as [|k IH]; intros Hk.
  - by rewrite Nat.add_0_r.
  - rewrite Nat.add_succ_r. cbn [slashLoop].
    rewrite <- Nat.add_assoc, string_index_app_r.
    change ("/" +:+ d) with (String "/" d).
    change (1 + k)%nat with (S k). cbn [string_index].
    destruct (string_index_is_Some d k ltac:(lia)) as [c Hc].
    rewrite Hc. simpl.
    pose proof (all_digits_index d Hd k c Hc).
    replace (c =? 47) with false by (symmetry; apply Z.eqb_neq; lia).
    replace (String.length addr + S k)%nat
      with (String.length addr + 1 + k)%nat by lia.
    apply IH. lia.
Qed.

(** On a prefix written [<address>/<n>], the result is [n]. *)
Lemma getPrefixLength_cidr (addr : string) (n : Z) :
  0 <= n < 2 ^ 63 →
  getPrefixLength (addr +:+ "/" +:+ FormatUint n) = Some n.
Proof.
  intros Hn. unfold getPrefixLength.
  set (d := FormatUint n).
  assert (Hd : all_digits d = true) by (apply formatBits_digits; [lia|done]).
  rewrite string_length_app. change ("/" +:+ d) with (String "/" d).
  cbn [String.length].
  replace (String.length addr + S (String.length d))%nat
    with (String.length addr + 1 + String.length d)%nat by lia.
  change (String "/" d) with ("/" +:+ d).
  rewrite slashLoop_skip_digits by (done || lia).
  rewrite Nat.add_1_r. cbn [slashLoop].
  replace (String.length addr) with (String.length addr + 0)%nat at 1 by lia.
  rewrite string_index_app_r. simpl string_index. simpl mbind.
  change (byte_of "/" =? 47) with true. cbv iota.
  rewrite string_length_app.
  replace (String.length addr + String.length ("/" +:+ d) - S (String.length addr))%nat
    with (String.length d)
    by (change ("/" +:+ d) with (String "/" d); cbn [String.length]; lia).
  rewrite (digitsLoop_fold _ d).
  - f_equal. unfold d, FormatUint.
    rewrite digitsFold_formatBits; [done| |lia].
    change (10 ^ Z.of_nat 20) with 100000000000000000000.
    change (2 ^ 63) with 9223372036854775808 in Hn. lia.
  - intros i Hi.
    replace (S (String.length addr) + i)%nat
      with (String.length addr + S i)%nat by lia.
    change (addr +:+ String "/" d) with (addr +:+ (String "/" d)).
    by rewrite string_index_app_r.
Qed.

End prefix_facts.

(** ** The blackhole detector *)

Module blackhole_facts.
Import models detector prefix_facts.

(** What [init()] leaves in the table: the RFC 7999 tag and the tag of
    every provider, each mapped to [true]. *)
Lemma init_table (c : string) :
  KnownBlackholeCommunities !! c = Some true
  ↔ c = RFC7999Blackhole ∨ ∃ asn, ProviderBlackholeCommunities !! asn = Some c.
Proof.
  unfold KnownBlackholeCommunities.
  generalize ProviderBlackholeCommunities.
  apply (map_fold_weak_ind
           (λ (known : gmap string bool) (providers : gmap Z string),
              known !! c = Some true
              ↔ c = RFC7999Blackhole ∨ ∃ asn, providers !! asn = Some c)).
  - rewrite lookup_insert. case_decide as Hc.
    + split; [intros _; by left|done].
    + rewrite lookup_empty. split; [done|].
      intros [->|[asn Hasn]]; [done|by rewrite lookup_empty in Hasn].
  - intros asn tag providers known Hfresh IH.
    rewrite lookup_insert. case_decide as Hc.
    + subst tag. split; [|done]. intros _. right. exists asn.
      by rewrite lookup_insert_eq.
    + rewrite IH. split.
      * intros [->|[k Hk]]; [by left|]. right. exists k.
        rewrite lookup_insert_ne; [done|]. intros ->. congruence.
      * intros [->|[k Hk]]; [by left|]. right. exists k.
        rewrite lookup_insert in Hk. case_decide; [congruence|done].
Qed.

Lemma table_true (c : string) :
  IsBlackholeCommunity c = true ↔ KnownBlackholeCommunities !! c = Some true.
Proof.
  unfold IsBlackholeCommunity.
  destruct (KnownBlackholeCommunities !! c) as [[]|]; simpl; split; congruence.
Qed.

Lemma HasBlackholeCommunity_spec (communities : list string) :
  HasBlackholeCommunity communities = true
  ↔ ∃ c, c ∈ communities ∧ KnownBlackholeCommunities !! c = Some true.
Proof.
  induction communities as [|c rest IH]; cbn [HasBlackholeCommunity].
  - split; [done|]. intros (c & Hc & _). by apply elem_of_nil in Hc.
  - destruct (IsBlackholeCommunity c) eqn:Hc.
    + split; [|done]. intros _. exists c. split; [left|by apply table_true].
    + rewrite IH. split.
      * intros (c' & Hin & Hk). exists c'. split; [by right|assumption].
      * intros (c' & Hin & Hk). apply elem_of_cons in Hin as [->|Hin].
        -- apply table_true in Hk. congruence.
        -- exists c'. split; assumption.
Qed.

(** The events of one call, spelled out. *)
Lemma Process_cases (now : Time) (update : BGPUpdate) :
  ∃ p, getPrefixLength (Prefix update) = Some p ∧
    BlackholeDetector.Process now update =
      if Announcement update && HasBlackholeCommunity (Communities update)
      then
        let isHostRoute := (p =? 32) || (p =? 128) in
        Some [ event EventTypeBlackhole
                 (BlackholeDetector.severity_of isHostRoute p) CategoryDefense
                 (OriginASN update) (Prefix update) now
                 (list_to_map
                    [ ("communities", VStrings (Communities update));
                      ("blackhole_communities",
                       VStrings (GetBlackholeCommunities (Communities update)));
                      ("as_path", VUint32s (ASPath update));
                      ("peer_asn", VUint32 (PeerASN update));
                      ("collector", VString (Collector update));
                      ("signal", VString "blackhole_community");
                      ("is_host_route", VBool isHostRoute);
                      ("confidence",
                       VFloat64 (BlackholeDetector.confidence_of isHostRoute p)) ]) ]
      else Some [].
Proof.
  destruct (getPrefixLength_total (Prefix update)) as (p & Hp & _).
  exists p. split; [done|]. unfold BlackholeDetector.Process.
  destruct (Announcement update); simpl; [|done].
  destruct (HasBlackholeCommunity (Communities update)); simpl; [|done].
  by rewrite Hp.
Qed.

End blackhole_facts.

(** C2.  The blackhole detector hands over an event exactly when the
    update is an announcement and one of its community strings is a key of
    the known table; a call never hands over more than one event.  The
    table holds the RFC 7999 tag and the providers' tags and nothing else,
    and is consulted by lookup of the whole string: ["3356:9999"] and
    ["1299:999"] are in it, ["6939:666"] is in it while ["6939:1234"] is
    not, and a withdrawal gives no event whatever its communities. *)
Theorem blackhole_event_iff_known_community :
  (∀ (now : models.Time) (update : models.BGPUpdate),
     (detector.BlackholeDetector.Process now update = Some []
      ∨ ∃ ev, detector.BlackholeDetector.Process now update = Some [ev])
     ∧ ((∃ ev, detector.BlackholeDetector.Process now update = Some [ev])
        ↔ models.Announcement update = true
          ∧ ∃ c, c ∈ models.Communities update
                 ∧ detector.KnownBlackholeCommunities !! c = Some true))
  ∧ (∀ c, detector.KnownBlackholeCommunities !! c = Some true
          ↔ c = "65535:666"
            ∨ ∃ asn, detector.ProviderBlackholeCommunities !! asn = Some c)
  ∧ detector.KnownBlackholeCommunities !! "3356:9999" = Some true
  ∧ detector.KnownBlackholeCommunities !! "1299:999" = Some true
  ∧ detector.KnownBlackholeCommunities !! "6939:666" = Some true
  ∧ detector.KnownBlackholeCommunities !! "6939:1234" = None
  ∧ (∀ (now : models.Time) (update : models.BGPUpdate),
       models.Communities update = ["6939:1234"] →
       detector.BlackholeDetector.Process now update = Some [])
  ∧ (∀ (now : models.Time) (update : models.BGPUpdate),
       models.Announcement update = false →
       detector.BlackholeDetector.Process now update = Some []).
Proof.
  split; [|split; [|split; [|split; [|split; [|split; [|split]]]]]].
  - intros now update.
    destruct (blackhole_facts.Process_cases now update) as (p & _ & ->).
    rewrite <- blackhole_facts.HasBlackholeCommunity_spec.
    destruct (models.Announcement update), (detector.HasBlackholeCommunity _);
      simpl; (split; [by (left + (right; eexists))|]);
      (split; [by intros [ev Hev]|]); try (by intros [? ?]).
    intros _. by eexists.
  - apply blackhole_facts.init_table.
  - by vm_compute.
  - by vm_compute.
  - by vm_compute.
  - by vm_compute.
  - intros now update Hc. unfold detector.BlackholeDetector.Process.
    rewrite Hc. by destruct (models.Announcement update).
  - intros now update Ha. unfold detector.BlackholeDetector.Process.
    by rewrite Ha.
Qed.


(** The reference tables are only ever evaluated as a whole. *)
Opaque detector.Tier1ASNs detector.ScrubbingASNs
  detector.KnownBlackholeCommunities.

(** ** The hijack detector: one call *)

Module hijack_facts.
Import models detector detector.HijackDetector prefix_facts.

(** The origin the detector reads for a prefix, and its state after the
    read (the read may refresh the local cache). *)
Definition known_origin (d : t) (now : Time) (prefix : string) : Z :=
  (getKnownOrigin d now prefix).1.

Definition after_lookup (d : t) (now : Time) (prefix : string) : t :=
  (getKnownOrigin d now prefix).2.

(** The event of a detection. *)
Definition hijack_event (knownOrigin : Z) (update : BGPUpdate)
    (severity : string) (now : Time) : BGPEvent :=
  event EventTypeHijack severity CategoryAttack knownOrigin (Prefix update) now
    (list_to_map
       [ ("original_origin", VUint32 knownOrigin);
         ("hijacking_asn", VUint32 (OriginASN update));
         ("as_path", VUint32s (ASPath update));
         ("peer_asn", VUint32 (PeerASN update));
         ("collector", VString (Collector update));
         ("flags", VStrings (flags_of severity));
         ("confidence", VFloat64 (confidence_of severity)) ]).

Lemma IsTier1_spec (asn : Z) : IsTier1 asn = true ↔ is_Some (Tier1ASNs !! asn).
Proof.
  unfold IsTier1, has_key. destruct (Tier1ASNs !! asn);
    [split; [by eexists|done]|split; [done|by intros [? ?]]].
Qed.

Lemma IsScrubbing_spec (asn : Z) :
  IsScrubbing asn = true ↔ is_Some (ScrubbingASNs !! asn).
Proof.
  unfold IsScrubbing, has_key. destruct (ScrubbingASNs !! asn);
    [split; [by eexists|done]|split; [done|by intros [? ?]]].
Qed.

Lemma HasScrubbingCenter_spec (asPath : list Z) :
  HasScrubbingCenter asPath = true
  ↔ ∃ asn, asn ∈ asPath ∧ is_Some (ScrubbingASNs !! asn).
Proof.
  induction asPath as [|a rest IH]; cbn [HasScrubbingCenter].
  - split; [done|]. intros (a & Ha & _). by apply elem_of_nil in Ha.
  - destruct (IsScrubbing a) eqn:Hs.
    + split; [|done]. intros _. exists a. split; [left|by apply IsScrubbing_spec].
    + rewrite IH. split.
      * intros (a' & Hin & Hk). exists a'. split; [by right|done].
      * intros (a' & Hin & Hk). apply elem_of_cons in Hin as [-> | Hin].
        -- apply IsScrubbing_spec in Hk. congruence.
        -- by exists a'.
Qed.

(** The severity is always determined: the prefix length is read without
    a panic. *)
Lemma severity_of_cases (knownOrigin : Z) (update : BGPUpdate) :
  ∃ p, getPrefixLength (Prefix update) = Some p ∧
    severity_of knownOrigin update =
      Some (if IsTier1 knownOrigin || IsTier1 (OriginASN update)
            then SeverityCritical
            else if p <? 16 then SeverityHigh else SeverityMedium).
Proof.
  destruct (getPrefixLength_total (Prefix update)) as (p & Hp & _).
  exists p. split; [done|]. unfold severity_of. rewrite Hp. cbn [mbind option_bind].
  destruct (IsTier1 knownOrigin || IsTier1 (OriginASN update)); [done|].
  by destruct (p <? 16).
Qed.

(** The guards of [Process], in the order of the source. *)
Lemma Process_skip (d : t) (now : Time) (update : BGPUpdate) :
  Announcement update = false ∨ OriginASN update = 0 →
  Process d now update = Some (d, []).
Proof.
  intros H. unfold Process.
  destruct H as [-> | ->]; [done|]. by rewrite orb_true_r.
Qed.

Lemma Process_scrubbing (d : t) (now : Time) (update : BGPUpdate) :
  HasScrubbingCenter (ASPath update) = true →
  Process d now update = Some (d, []).
Proof.
  intros H. unfold Process. rewrite H.
  by destruct (negb (Announcement update) || (OriginASN update =? 0)).
Qed.

Section one_call.
Context (d : t) (now : Time) (update : BGPUpdate).
Context (Hann : Announcement update = true).
Context (Horigin : OriginASN update ≠ 0).
Context (Hclean : HasScrubbingCenter (ASPath update) = false).

Local Abbreviation known := (known_origin d now (Prefix update)).
Local Abbreviation d1 := (after_lookup d now (Prefix update)).

Lemma Process_checked :
  Process d now update =
    if known =? 0 then
      Some (setKnownOrigin d1 now (Prefix update) (OriginASN update), [])
    else if known =? OriginASN update then Some (d1, [])
    else if isKnownMOAS d1 now (Prefix update) (OriginASN update) then Some (d1, [])
    else
      severity ← severity_of known update;
      Some (addKnownMOAS d1 now (Prefix update) (OriginASN update),
            [hijack_event known update severity now]).
Proof.
  unfold Process, known_origin, after_lookup. rewrite Hann, Hclean.
  replace (OriginASN update =? 0) with false by (symmetry; apply Z.eqb_neq; done).
  cbn [negb orb]. by destruct (getKnownOrigin d now (Prefix update)) as [k d'].
Qed.

Lemma Process_learn :
  known = 0 →
  Process d now update
  = Some (setKnownOrigin d1 now (Prefix update) (OriginASN update), []).
Proof. intros Hk. by rewrite Process_checked, Hk. Qed.

Lemma Process_same :
  known = OriginASN update → Process d now update = Some (d1, []).
Proof.
  intros Hk. rewrite Process_checked, Hk.
  replace (OriginASN update =? 0) with false by (symmetry; apply Z.eqb_neq; done).
  by rewrite Z.eqb_refl.
Qed.

Lemma Process_moas :
  known ≠ 0 → known ≠ OriginASN update →
  isKnownMOAS d1 now (Prefix update) (OriginASN update) = true →
  Process d now update = Some (d1, []).
Proof.
  intros Hk0 Hk Hm. rewrite Process_checked, Hm.
  replace (known =? 0) with false by (symmetry; apply Z.eqb_neq; done).
  by replace (known =? OriginASN update) with false
    by (symmetry; apply Z.eqb_neq; done).
Qed.

Lemma Process_detect :
  known ≠ 0 → known ≠ OriginASN update →
  isKnownMOAS d1 now (Prefix update) (OriginASN update) = false →
  ∃ severity,
    severity_of known update = Some severity ∧
    Process d now update
    = Some (addKnownMOAS d1 now (Prefix update) (OriginASN update),
            [hijack_event known update severity now]).
Proof.
  intros Hk0 Hk Hm.
  destruct (severity_of_cases known update) as (p & _ & Hsev).
  eexists. split; [exact Hsev|].
  rewrite Process_checked, Hm, Hsev.
  replace (known =? 0) with false by (symmetry; apply Z.eqb_neq; done).
  by replace (known =? OriginASN update) with false
    by (symmetry; apply Z.eqb_neq; done).
Qed.

End one_call.

(** A call that hands over an event went through every guard. *)
Lemma Process_event_inv (d d' : t) (now : Time) (update : BGPUpdate)
    (ev : BGPEvent) :
  Process d now update = Some (d', [ev]) →
  let known := known_origin d now (Prefix update) in
  let d1 := after_lookup d now (Prefix update) in
  Announcement update = true ∧ OriginASN update ≠ 0 ∧
  HasScrubbingCenter (ASPath update) = false ∧
  known ≠ 0 ∧ known ≠ OriginASN update ∧
  isKnownMOAS d1 now (Prefix update) (OriginASN update) = false ∧
  d' = addKnownMOAS d1 now (Prefix update) (OriginASN update) ∧
  ∃ severity,
    severity_of known update = Some severity ∧
    ev = hijack_event known update severity now.
Proof.
  intros HP known d1.
  destruct (Announcement update) eqn:Hann;
    [|by rewrite Process_skip in HP by (by left)].
  destruct (decide (OriginASN update = 0)) as [H0|H0];
    [by rewrite Process_skip in HP by (by right)|].
  destruct (HasScrubbingCenter (ASPath update)) eqn:Hs;
    [by rewrite Process_scrubbing in HP|].
  rewrite Process_checked in HP by done. fold known d1 in HP.
  destruct (known =? 0) eqn:Hk0; [done|].
  destruct (known =? OriginASN update) eqn:Hk; [done|].
  destruct (isKnownMOAS d1 now (Prefix update) (OriginASN update)) eqn:Hm; [done|].
  apply Z.eqb_neq in Hk0, Hk.
  destruct (severity_of known update) as [sev|] eqn:Hsev; [|done].
  cbn [mbind option_bind] in HP. injection HP as <- <-.
  repeat (split; [done|]). by exists sev.
Qed.

(** A call never panics and hands over at most one event. *)
Lemma Process_total (d : t) (now : Time) (update : BGPUpdate) :
  ∃ d' out, Process d now update = Some (d', out) ∧ (length out <= 1)%nat.
Proof.
  destruct (Announcement update) eqn:Hann;
    [|eexists _, _; split; [apply Process_skip; by left|cbn [length]; lia]].
  destruct (decide (OriginASN update = 0)) as [H0|H0];
    [eexists _, _; split; [apply Process_skip; by right|cbn [length]; lia]|].
  destruct (HasScrubbingCenter (ASPath update)) eqn:Hs;
    [eexists _, _; split; [by apply Process_scrubbing|cbn [length]; lia]|].
  rewrite Process_checked by done.
  destruct (_ =? 0); [eexists _, _; split; [done|cbn [length]; lia]|].
  destruct (_ =? OriginASN update); [eexists _, _; split; [done|cbn [length]; lia]|].
  destruct (isKnownMOAS _ _ _ _); [eexists _, _; split; [done|cbn [length]; lia]|].
  destruct (severity_of_cases (known_origin d now (Prefix update)) update)
    as (p & _ & ->).
  eexists _, _; split; [done|cbn [length]; lia].
Qed.

End hijack_facts.

(** ** Keys of the external store *)

Module key_facts.
Import detector.HijackDetector.

Fixpoint string_last (s : string) : option ascii :=
  match s with
  | EmptyString => None
  | String c EmptyString => Some c
  | String _ r => string_last r
  end.

Lemma string_last_app (a b : string) :
  b ≠ EmptyString → string_last (a +:+ b) = string_last b.
Proof.
  intros Hb. induction a as [|c a IH]; [done|].
  change (String c a +:+ b) with (String c (a +:+ b)).
  cbn [string_last]. destruct (a +:+ b) eqn:Hab; [|done].
  destruct a; [change ("" +:+ b) with b in Hab; congruence|done].
Qed.

Lemma string_app_inv_r (a b c : string) : a +:+ c = b +:+ c → a = b.
Proof.
  revert b. induction a as [|x a IH]; intros [|y b] H.
  - done.
  - apply (f_equal String.length) in H.
    rewrite !string_length_app in H. cbn [String.length] in H. lia.
  - apply (f_equal String.length) in H.
    rewrite !string_length_app in H. cbn [String.length] in H. lia.
  - change (String x (a +:+ c) = String y (b +:+ c)) in H.
    injection H as -> H. f_equal. by apply IH.
Qed.

Lemma originKey_inj (p q : string) : originKey p = originKey q → p = q.
Proof.
  unfold originKey. intros H.
  apply (inj (String.append _)) in H. by eapply string_app_inv_r.
Qed.

Lemma originsKey_inj (p q : string) : originsKey p = originsKey q → p = q.
Proof.
  unfold originsKey. intros H.
  apply (inj (String.append _)) in H. by eapply string_app_inv_r.
Qed.

(** The key of the known origin of one prefix is never the key of the
    MOAS set of another. *)
Lemma originKey_originsKey (p q : string) : originKey p ≠ originsKey q.
Proof.
  unfold originKey, originsKey. intros H.
  apply (inj (String.append _)) in H.
  apply (f_equal string_last) in H.
  rewrite !string_last_app in H by done. done.
Qed.

End key_facts.

(** ** The external store *)

Module redis_facts.
Import redis.

Lemma live_insert_eq (now : models.Time) (m : gmap string (entry * option models.Time))
    (key : string) (e : entry) (expiry : option models.Time) :
  live now {| db := <[key := (e, expiry)]> m |} key
  = match expiry with
    | None => Some e
    | Some t => if now <? t then Some e else None
    end.
Proof. unfold live. cbn [db]. by rewrite lookup_insert_eq. Qed.

Lemma live_insert_ne (now : models.Time) (m : gmap string (entry * option models.Time))
    (key key' : string) (x : entry * option models.Time) :
  key ≠ key' →
  live now {| db := <[key := x]> m |} key' = live now {| db := m |} key'.
Proof. intros Hne. unfold live. cbn [db]. by rewrite lookup_insert_ne. Qed.

Lemma live_eta (now : models.Time) (c : Client) (key : string) :
  live now {| db := db c |} key = live now c key.
Proof. done. Qed.

Lemma Get_Set_eq (now now' : models.Time) (c : Client) (key value : string)
    (ttl : Z) :
  now' < now + ttl → Get now' (Set_ now c key value ttl) key = Some value.
Proof.
  intros Hlt. unfold Get, Set_. rewrite live_insert_eq.
  by replace (now' <? now + ttl) with true by (symmetry; apply Z.ltb_lt; lia).
Qed.

Lemma Get_Set_expired (now now' : models.Time) (c : Client) (key value : string)
    (ttl : Z) :
  now + ttl <= now' → Get now' (Set_ now c key value ttl) key = None.
Proof.
  intros Hle. unfold Get, Set_. rewrite live_insert_eq.
  by replace (now' <? now + ttl) with false by (symmetry; apply Z.ltb_ge; lia).
Qed.

Lemma live_Set_ne (now now' : models.Time) (c : Client) (key key' value : string)
    (ttl : Z) :
  key ≠ key' → live now' (Set_ now c key value ttl) key' = live now' c key'.
Proof. intros Hne. unfold Set_. by rewrite live_insert_ne. Qed.

Lemma live_SAdd_ne (now now' : models.Time) (c : Client) (key key' member : string) :
  key ≠ key' → live now' (SAdd now c key member) key' = live now' c key'.
Proof.
  intros Hne. unfold SAdd.
  destruct (live now c key) as [[v|s]|]; [done| |]; by rewrite live_insert_ne.
Qed.

Lemma live_Expire_ne (now now' : models.Time) (c : Client) (key key' : string)
    (ttl : Z) :
  key ≠ key' → live now' (Expire now c key ttl) key' = live now' c key'.
Proof.
  intros Hne. unfold Expire.
  destruct (live now c key); [|done]. by rewrite live_insert_ne.
Qed.

(** What [SADD] leaves under its key, as seen at the instant of the
    command. *)
Lemma live_SAdd_eq (now : models.Time) (c : Client) (key member : string) :
  live now (SAdd now c key member) key
  = match live now c key with
    | None => Some (Members {[member]})
    | Some (Members s) => Some (Members ({[member]} ∪ s))
    | Some (Str v) => Some (Str v)
    end.
Proof.
  unfold SAdd. destruct (live now c key) as [[v|s]|] eqn:Hl.
  - done.
  - rewrite live_insert_eq. unfold expiry_of. unfold live in Hl.
    destruct (db c !! key) as [[e [t|]]|]; [|done|done].
    destruct (now <? t) eqn:Ht; [|done]. by rewrite Ht.
  - by rewrite live_insert_eq.
Qed.

Lemma live_Expire_eq (now now' : models.Time) (c : Client) (key : string)
    (ttl : Z) :
  now <= now' < now + ttl →
  live now' (Expire now c key ttl) key = live now c key.
Proof.
  intros Hlt. unfold Expire. destruct (live now c key) as [e|] eqn:Hl.
  - rewrite live_insert_eq.
    by replace (now' <? now + ttl) with true by (symmetry; apply Z.ltb_lt; lia).
  - unfold live in *. destruct (db c !! key) as [[e [t|]]|]; [|done|done].
    destruct (now <? t) eqn:Ht; [done|].
    apply Z.ltb_ge in Ht.
    by replace (now' <? t) with false by (symmetry; apply Z.ltb_ge; lia).
Qed.

End redis_facts.
(** ** The origin-tracking store of the hijack detector *)

Module store_facts.
Import models detector detector.HijackDetector.
Import hijack_facts key_facts redis_facts strconv_facts.

Lemma to_uint32_small (x : Z) : 0 <= x < 2 ^ 32 → to_uint32 x = x.
Proof. intros Hx. unfold to_uint32. by rewrite Z.mod_small. Qed.

Lemma to_uint32_range (x : Z) : 0 <= to_uint32 x < 2 ^ 32.
Proof. unfold to_uint32. apply Z.mod_pos_bound. lia. Qed.

Lemma cached_store_eq (d : t) (now now' : Time) (p : string) (v : Z) :
  cached (store d now p v) now' p
  = if now' - now <? cacheTTL d then Some v else None.
Proof. unfold cached, store. cbn. by rewrite !lookup_insert_eq. Qed.

Lemma cached_store_ne (d : t) (now now' : Time) (p q : string) (v : Z) :
  p ≠ q → cached (store d now p v) now' q = cached d now' q.
Proof.
  intros Hne. unfold cached, store. cbn. by rewrite !lookup_insert_ne.
Qed.

Lemma cached_with_redis (d : t) (c : redis.Client) (now : Time) (p : string) :
  cached (with_redis d c) now p = cached d now p.
Proof. done. Qed.

(** Time only makes keys expire. *)
Lemma live_mono (now now' : Time) (c : redis.Client) (key : string)
    (e : redis.entry) :
  now <= now' → redis.live now' c key = Some e → redis.live now c key = Some e.
Proof.
  intros Hle. unfold redis.live.
  destruct (redis.db c !! key) as [[e' [exp|]]|]; [|done|done].
  destruct (now' <? exp) eqn:H'; [|done]. apply Z.ltb_lt in H'.
  by replace (now <? exp) with true by (symmetry; apply Z.ltb_lt; lia).
Qed.

Lemma getUint64_live (now : Time) (c c' : redis.Client) (key : string) :
  redis.live now c key = redis.live now c' key →
  getUint64 now c key = getUint64 now c' key.
Proof. intros H. unfold getUint64, redis.Get. by rewrite H. Qed.

Lemma getUint64_Set (now now' : Time) (c : redis.Client) (key : string)
    (v ttl : Z) :
  0 <= v < 2 ^ 64 → now' < now + ttl →
  getUint64 now' (redis.Set_ now c key (strconv.FormatUint v) ttl) key = Some v.
Proof.
  intros Hv Hlt. unfold getUint64.
  rewrite Get_Set_eq by done.
  by rewrite ParseUint_FormatUint by lia.
Qed.

(** The three ways a read ends. *)
Lemma getKnownOrigin_hit (d : t) (now : Time) (p : string) (v : Z) :
  cached d now p = Some v → getKnownOrigin d now p = (v, d).
Proof. intros H. unfold getKnownOrigin. by rewrite H. Qed.

Lemma getKnownOrigin_no_store (d : t) (now : Time) (p : string) :
  cached d now p = None → redis d = None → getKnownOrigin d now p = (0, d).
Proof. intros H1 H2. unfold getKnownOrigin. by rewrite H1, H2. Qed.

Lemma getKnownOrigin_store (d : t) (now : Time) (p : string) (c : redis.Client) :
  cached d now p = None → redis d = Some c →
  getKnownOrigin d now p
  = match getUint64 now c (originKey p) with
    | Some val => (to_uint32 val, store d now p (to_uint32 val))
    | None => (0, d)
    end.
Proof. intros H1 H2. unfold getKnownOrigin. by rewrite H1, H2. Qed.

(** A read leaves the external store alone. *)
Lemma after_lookup_redis (d : t) (now : Time) (p : string) :
  redis (after_lookup d now p) = redis d
  ∧ cacheTTL (after_lookup d now p) = cacheTTL d.
Proof.
  unfold after_lookup, getKnownOrigin.
  destruct (cached d now p); [done|].
  destruct (redis d) as [c|] eqn:Hr; [|done].
  by destruct (getUint64 now c (originKey p)).
Qed.

(** The value read depends on the cache entry of the prefix and on what
    lives under its key. *)
Lemma known_origin_ext (d d' : t) (now : Time) (p : string) :
  cached d now p = cached d' now p →
  (∀ c, redis d = Some c →
        ∃ c', redis d' = Some c'
              ∧ redis.live now c (originKey p) = redis.live now c' (originKey p)) →
  (redis d = None → redis d' = None) →
  known_origin d now p = known_origin d' now p.
Proof.
  intros Hc Hs Hn. unfold known_origin, getKnownOrigin. rewrite <- Hc.
  destruct (cached d now p); [done|].
  destruct (redis d) as [c|] eqn:Hr.
  - destruct (Hs c eq_refl) as (c' & -> & Hl).
    rewrite (getUint64_live now c c') by done.
    by destruct (getUint64 now c' (originKey p)).
  - by rewrite Hn.
Qed.

(** Reading one prefix does not change what is read for any prefix. *)
Lemma known_origin_after_lookup (d : t) (now : Time) (p q : string) :
  known_origin (after_lookup d now q) now p = known_origin d now p.
Proof.
  unfold after_lookup.
  destruct (cached d now q) as [v|] eqn:Hc;
    [by rewrite (getKnownOrigin_hit d now q v)|].
  destruct (redis d) as [c|] eqn:Hr;
    [|by rewrite getKnownOrigin_no_store].
  rewrite (getKnownOrigin_store d now q c) by done.
  destruct (getUint64 now c (originKey q)) as [val|] eqn:Hg; [|done].
  cbn [snd]. destruct (decide (q = p)) as [->|Hne].
  - unfold known_origin at 2. rewrite (getKnownOrigin_store d now p c) by done.
    rewrite Hg. cbn [fst].
    unfold known_origin, getKnownOrigin. rewrite cached_store_eq.
    destruct (now - now <? cacheTTL d); [done|].
    cbn [redis store]. rewrite Hr, Hg. done.
  - apply known_origin_ext.
    + by apply cached_store_ne.
    + cbn [redis store]. intros c0 Hc0. exists c0. by rewrite <- Hc0.
    + done.
Qed.

Lemma known_origin_setKnownOrigin_ne (d : t) (now now' : Time) (p q : string)
    (origin : Z) :
  p ≠ q →
  known_origin (setKnownOrigin d now p origin) now' q = known_origin d now' q.
Proof.
  intros Hne. symmetry. unfold setKnownOrigin. cbn [redis store].
  destruct (redis d) as [c|] eqn:Hr.
  - apply known_origin_ext.
    + rewrite cached_with_redis. symmetry. by apply cached_store_ne.
    + intros c0 Hc0. rewrite Hr in Hc0. injection Hc0 as <-.
      eexists. split; [done|]. symmetry.
      apply live_Set_ne. intros H. by apply originKey_inj in H.
    + by rewrite Hr.
  - apply known_origin_ext.
    + symmetry. by apply cached_store_ne.
    + by rewrite Hr.
    + done.
Qed.

Lemma known_origin_addKnownMOAS (d : t) (now now' : Time) (p q : string)
    (origin : Z) :
  known_origin (addKnownMOAS d now p origin) now' q = known_origin d now' q.
Proof.
  unfold addKnownMOAS. destruct (redis d) as [c|] eqn:Hr; [|done].
  symmetry. apply known_origin_ext.
  - done.
  - intros c0 Hc0. rewrite Hr in Hc0. injection Hc0 as <-.
    eexists. split; [done|].
    rewrite live_Expire_ne, live_SAdd_ne; [done|..];
      intros H; symmetry in H; by apply originKey_originsKey in H.
  - by rewrite Hr.
Qed.

Lemma isKnownMOAS_redis (d d' : t) (now : Time) (p : string) (origin : Z) :
  redis d = redis d' →
  isKnownMOAS d now p origin = isKnownMOAS d' now p origin.
Proof. intros H. unfold isKnownMOAS. by rewrite H. Qed.

Lemma setKnownOrigin_redis (d : t) (now : Time) (p : string) (a : Z) :
  redis (setKnownOrigin d now p a)
  = (λ c, redis.Set_ now c (originKey p) (strconv.FormatUint a) (48 * time.Hour))
      <$> redis d.
Proof.
  unfold setKnownOrigin. cbn [redis store].
  by destruct (redis d) eqn:Hr.
Qed.

Lemma isKnownMOAS_setKnownOrigin (d : t) (now now' : Time) (p q : string)
    (a b : Z) :
  isKnownMOAS (setKnownOrigin d now p a) now' q b = isKnownMOAS d now' q b.
Proof.
  unfold isKnownMOAS. rewrite setKnownOrigin_redis.
  destruct (redis d) as [c|]; [|done]. cbn [fmap option_fmap option_map].
  unfold redis.SIsMember. rewrite live_Set_ne; [done|].
  apply originKey_originsKey.
Qed.

Lemma isKnownMOAS_added (d : t) (now now' : Time) (p : string) (origin : Z)
    (c : redis.Client) :
  redis d = Some c → redis.Get now c (originsKey p) = None →
  now <= now' < now + 48 * time.Hour →
  isKnownMOAS (addKnownMOAS d now p origin) now' p origin = true.
Proof.
  intros Hr Hg Hnow. unfold isKnownMOAS, addKnownMOAS. rewrite Hr.
  cbn [with_redis redis]. unfold redis.SIsMember.
  rewrite live_Expire_eq by exact Hnow. rewrite live_SAdd_eq.
  unfold redis.Get in Hg.
  destruct (redis.live now c (originsKey p)) as [[v|s]|]; [done| |];
    apply bool_decide_eq_true.
  - apply elem_of_union. left. by apply elem_of_singleton.
  - by apply elem_of_singleton.
Qed.

Lemma isKnownMOAS_kept (d : t) (now now' : Time) (p : string) (a b : Z) :
  now <= now' < now + 48 * time.Hour →
  isKnownMOAS d now' p b = true →
  isKnownMOAS (addKnownMOAS d now p a) now' p b = true.
Proof.
  intros Hnow. unfold isKnownMOAS, addKnownMOAS.
  destruct (redis d) as [c|] eqn:Hr; [|done]. cbn [with_redis redis].
  unfold redis.SIsMember. intros Hm.
  destruct (redis.live now' c (originsKey p)) as [[v|s]|] eqn:Hl; [done| |done].
  apply (live_mono now now') in Hl; [|lia].
  rewrite live_Expire_eq by exact Hnow. rewrite live_SAdd_eq, Hl.
  apply bool_decide_eq_true. apply bool_decide_eq_true in Hm.
  apply elem_of_union. by right.
Qed.

Lemma isKnownMOAS_addKnownMOAS_ne (d : t) (now now' : Time) (p q : string)
    (a b : Z) :
  p ≠ q →
  isKnownMOAS (addKnownMOAS d now p a) now' q b = isKnownMOAS d now' q b.
Proof.
  intros Hne. unfold isKnownMOAS, addKnownMOAS.
  destruct (redis d) as [c|] eqn:Hr; [|by rewrite Hr]. cbn [with_redis redis].
  unfold redis.SIsMember.
  rewrite live_Expire_ne, live_SAdd_ne; [done|..];
    intros H; by apply originsKey_inj in H.
Qed.

End store_facts.

(** X1.  Writing a known origin and reading it back.  After
    [setKnownOrigin] has stored a 32-bit origin for a prefix at time
    [now], [getKnownOrigin] returns it at every time [now'] within the
    cache lifetime of the write and, when the detector has an external
    store, at every [now'] before [now] + 48 h, also once the cache entry
    has gone stale. *)
Theorem known_origin_set_then_get
    (d : detector.HijackDetector.t) (now now' : models.Time)
    (prefix : string) (origin : Z) :
  0 <= origin < 2 ^ 32 →
  now' - now < detector.HijackDetector.cacheTTL d
  ∨ (is_Some (detector.HijackDetector.redis d) ∧ now' < now + 48 * time.Hour) →
  (detector.HijackDetector.getKnownOrigin
     (detector.HijackDetector.setKnownOrigin d now prefix origin) now' prefix).1
  = origin.
Proof.
  intros Horigin Hwhen.
  set (d' := detector.HijackDetector.setKnownOrigin d now prefix origin).
  assert (Hcached : detector.HijackDetector.cached d' now' prefix
                    = if now' - now <? detector.HijackDetector.cacheTTL d
                      then Some origin else None).
  { unfold d', detector.HijackDetector.setKnownOrigin.
    cbn [detector.HijackDetector.redis detector.HijackDetector.store].
    destruct (detector.HijackDetector.redis d);
      [rewrite store_facts.cached_with_redis|];
      apply store_facts.cached_store_eq. }
  destruct (now' - now <? detector.HijackDetector.cacheTTL d) eqn:Hfresh.
  - by rewrite (store_facts.getKnownOrigin_hit d' now' prefix origin).
  - apply Z.ltb_ge in Hfresh.
    destruct Hwhen as [Hlt|[[c Hc] Hlt]]; [lia|].
    assert (Hr : detector.HijackDetector.redis d'
                 = Some (redis.Set_ now c (detector.HijackDetector.originKey prefix)
                           (strconv.FormatUint origin) (48 * time.Hour))).
    { unfold d'. by rewrite store_facts.setKnownOrigin_redis, Hc. }
    rewrite (store_facts.getKnownOrigin_store d' now' prefix _ Hcached Hr).
    rewrite store_facts.getUint64_Set by lia.
    cbn [fst]. by apply store_facts.to_uint32_small.
Qed.

Lemma known_origin_set_then_get_witness :
  0 <= 64500 < 2 ^ 32
  ∧ (detector.HijackDetector.getKnownOrigin
       (detector.HijackDetector.setKnownOrigin
          (detector.HijackDetector.NewHijackDetector (Some {| redis.db := ∅ |}))
          0 "1.2.3.0/24" 64500)
       (6 * time.Minute) "1.2.3.0/24").1 = 64500.
Proof.
  split; [lia|].
  apply (known_origin_set_then_get
           (detector.HijackDetector.NewHijackDetector (Some {| redis.db := ∅ |}))
           0 (6 * time.Minute) "1.2.3.0/24" 64500); [lia|].
  right. split; [by eexists|]. by vm_compute.
Defined.

(** X2.  Known origins are kept per prefix: storing an origin for one
    prefix does not change what [getKnownOrigin] reads, at any time, for
    another prefix. *)
Theorem known_origin_per_prefix
    (d : detector.HijackDetector.t) (now now' : models.Time)
    (prefix other : string) (origin : Z) :
  prefix ≠ other →
  (detector.HijackDetector.getKnownOrigin
     (detector.HijackDetector.setKnownOrigin d now prefix origin) now' other).1
  = (detector.HijackDetector.getKnownOrigin d now' other).1.
Proof. apply store_facts.known_origin_setKnownOrigin_ne. Qed.

Lemma known_origin_per_prefix_witness :
  "1.2.3.0/24" ≠ "1.2.4.0/24"
  ∧ (detector.HijackDetector.getKnownOrigin
       (detector.HijackDetector.setKnownOrigin
          (detector.HijackDetector.NewHijackDetector None) 0 "1.2.3.0/24" 64500)
       1 "1.2.4.0/24").1
    = (detector.HijackDetector.getKnownOrigin
         (detector.HijackDetector.NewHijackDetector None) 1 "1.2.4.0/24").1.
Proof.
  split; [discriminate|].
  apply (known_origin_per_prefix
           (detector.HijackDetector.NewHijackDetector None)
           0 1 "1.2.3.0/24" "1.2.4.0/24" 64500).
  discriminate.
Defined.

(** X3.  The read-through cache.  When [getKnownOrigin] misses the
    cache and finds a value in the external store, it returns that value
    truncated to 32 bits, does not write to the store, and serves the
    same value from the cache for the next [cacheTTL], whatever the store
    holds by then. *)
Theorem known_origin_read_through
    (d : detector.HijackDetector.t) (now now' : models.Time)
    (prefix : string) (c c' : redis.Client) (val : Z) :
  detector.HijackDetector.cached d now prefix = None →
  detector.HijackDetector.redis d = Some c →
  detector.HijackDetector.getUint64 now c
    (detector.HijackDetector.originKey prefix) = Some val →
  now' - now < detector.HijackDetector.cacheTTL d →
  let d1 := (detector.HijackDetector.getKnownOrigin d now prefix).2 in
  (detector.HijackDetector.getKnownOrigin d now prefix).1 = to_uint32 val
  ∧ detector.HijackDetector.redis d1 = Some c
  ∧ detector.HijackDetector.getKnownOrigin
      (detector.HijackDetector.with_redis d1 c') now' prefix
    = (to_uint32 val, detector.HijackDetector.with_redis d1 c').
Proof.
  intros Hmiss Hr Hval Hfresh d1. unfold d1.
  rewrite (store_facts.getKnownOrigin_store d now prefix c Hmiss Hr), Hval.
  cbn [fst snd]. split; [done|]. split; [done|].
  apply store_facts.getKnownOrigin_hit.
  rewrite store_facts.cached_with_redis, store_facts.cached_store_eq.
  by replace (now' - now <? detector.HijackDetector.cacheTTL d) with true
    by (symmetry; apply Z.ltb_lt; lia).
Qed.

Lemma known_origin_read_through_witness :
  let c := {| redis.db := {[ "bgp:prefix:1.2.3.0/24:origin"
                             := (redis.Str "64500", None) ]} |} in
  let d := detector.HijackDetector.NewHijackDetector (Some c) in
  let d1 := (detector.HijackDetector.getKnownOrigin d 0 "1.2.3.0/24").2 in
  (detector.HijackDetector.getKnownOrigin d 0 "1.2.3.0/24").1 = to_uint32 64500
  ∧ detector.HijackDetector.redis d1 = Some c
  ∧ detector.HijackDetector.getKnownOrigin
      (detector.HijackDetector.with_redis d1 {| redis.db := ∅ |}) 1 "1.2.3.0/24"
    = (to_uint32 64500,
       detector.HijackDetector.with_redis d1 {| redis.db := ∅ |}).
Proof.
  intros c d.
  apply (known_origin_read_through d 0 1 "1.2.3.0/24" c {| redis.db := ∅ |} 64500);
    by vm_compute.
Defined.

(** X4.  Adding to a MOAS set and asking for membership.  With an
    external store whose MOAS key of the prefix does not hold a plain
    string, an origin added by [addKnownMOAS] at time [now] is reported by
    [isKnownMOAS] at every time from [now] up to, and excluding, [now] +
    48 h. *)
Theorem moas_add_then_member
    (d : detector.HijackDetector.t) (now now' : models.Time)
    (prefix : string) (origin : Z) (c : redis.Client) :
  detector.HijackDetector.redis d = Some c →
  redis.Get now c (detector.HijackDetector.originsKey prefix) = None →
  now <= now' < now + 48 * time.Hour →
  detector.HijackDetector.isKnownMOAS
    (detector.HijackDetector.addKnownMOAS d now prefix origin) now' prefix origin
  = true.
Proof. apply store_facts.isKnownMOAS_added. Qed.

Lemma moas_add_then_member_witness :
  detector.HijackDetector.isKnownMOAS
    (detector.HijackDetector.addKnownMOAS
       (detector.HijackDetector.NewHijackDetector (Some {| redis.db := ∅ |}))
       0 "1.2.3.0/24" 64501)
    (47 * time.Hour) "1.2.3.0/24" 64501
  = true.
Proof.
  apply (moas_add_then_member
           (detector.HijackDetector.NewHijackDetector (Some {| redis.db := ∅ |}))
           0 (47 * time.Hour) "1.2.3.0/24" 64501 {| redis.db := ∅ |});
    by vm_compute.
Defined.

(** X5.  Without an external store there is no MOAS history: whatever
    origins are added, for whatever prefixes and at whatever times,
    [addKnownMOAS] leaves the detector unchanged and [isKnownMOAS] answers
    [false] to every question. *)
Theorem moas_without_store
    (d : detector.HijackDetector.t)
    (adds : list (models.Time * string * Z)) :
  detector.HijackDetector.redis d = None →
  let d' := fold_left
              (λ acc '(now, prefix, origin),
                 detector.HijackDetector.addKnownMOAS acc now prefix origin)
              adds d in
  d' = d
  ∧ ∀ (now : models.Time) (prefix : string) (origin : Z),
      detector.HijackDetector.isKnownMOAS d' now prefix origin = false.
Proof.
  intros Hr d'.
  assert (Hd : d' = d).
  { unfold d'. clear d'. induction adds as [|[[now p] o] adds IH]; [done|].
    cbn [fold_left]. unfold detector.HijackDetector.addKnownMOAS at 2.
    by rewrite Hr. }
  split; [done|]. intros now prefix origin.
  unfold detector.HijackDetector.isKnownMOAS. by rewrite Hd, Hr.
Qed.

Lemma moas_without_store_witness :
  let d := detector.HijackDetector.NewHijackDetector None in
  let d' := fold_left
              (λ acc '(now, prefix, origin),
                 detector.HijackDetector.addKnownMOAS acc now prefix origin)
              [(0, "1.2.3.0/24", 64501); (1, "1.2.3.0/24", 64502)] d in
  d' = d
  ∧ ∀ (now : models.Time) (prefix : string) (origin : Z),
      detector.HijackDetector.isKnownMOAS d' now prefix origin = false.
Proof.
  intros d.
  apply (moas_without_store d
           [(0, "1.2.3.0/24", 64501); (1, "1.2.3.0/24", 64502)]).
  reflexivity.
Defined.

(** X6.  Known origins and MOAS sets do not interfere.  Adding an origin
    to the MOAS set of any prefix never changes the known origin read for
    any prefix at any time, and storing a known origin never changes a
    MOAS membership answer: the two kinds of keys never coincide. *)
Theorem origin_and_moas_independent
    (d : detector.HijackDetector.t) (now now' : models.Time)
    (prefix other : string) (origin asn : Z) :
  (detector.HijackDetector.getKnownOrigin
     (detector.HijackDetector.addKnownMOAS d now prefix origin) now' other).1
  = (detector.HijackDetector.getKnownOrigin d now' other).1
  ∧ detector.HijackDetector.isKnownMOAS
      (detector.HijackDetector.setKnownOrigin d now prefix origin) now' other asn
    = detector.HijackDetector.isKnownMOAS d now' other asn
  ∧ detector.HijackDetector.originKey prefix
    ≠ detector.HijackDetector.originsKey other.
Proof.
  split; [apply store_facts.known_origin_addKnownMOAS|].
  split; [apply store_facts.isKnownMOAS_setKnownOrigin|].
  apply key_facts.originKey_originsKey.
Qed.

(** X7.  A MOAS set only grows while it lives.  An origin that
    [isKnownMOAS] reports for a prefix at a time [now'] is still reported
    at [now'] after another origin has been added at an earlier time [now]
    with [now'] < [now] + 48 h; and an addition for one prefix changes no
    answer about another prefix. *)
Theorem moas_add_keeps_members
    (d : detector.HijackDetector.t) (now now' : models.Time)
    (prefix other : string) (added asn : Z) :
  now <= now' < now + 48 * time.Hour →
  (detector.HijackDetector.isKnownMOAS d now' prefix asn = true →
   detector.HijackDetector.isKnownMOAS
     (detector.HijackDetector.addKnownMOAS d now prefix added) now' prefix asn
   = true)
  ∧ (prefix ≠ other →
     detector.HijackDetector.isKnownMOAS
       (detector.HijackDetector.addKnownMOAS d now prefix added) now' other asn
     = detector.HijackDetector.isKnownMOAS d now' other asn).
Proof.
  intros Hnow. split.
  - by apply store_facts.isKnownMOAS_kept.
  - apply store_facts.isKnownMOAS_addKnownMOAS_ne.
Qed.

Lemma moas_add_keeps_members_witness :
  let d := detector.HijackDetector.addKnownMOAS
             (detector.HijackDetector.NewHijackDetector (Some {| redis.db := ∅ |}))
             0 "1.2.3.0/24" 64501 in
  (detector.HijackDetector.isKnownMOAS d 20 "1.2.3.0/24" 64501 = true →
   detector.HijackDetector.isKnownMOAS
     (detector.HijackDetector.addKnownMOAS d 10 "1.2.3.0/24" 64502)
     20 "1.2.3.0/24" 64501 = true)
  ∧ ("1.2.3.0/24" ≠ "1.2.4.0/24" →
     detector.HijackDetector.isKnownMOAS
       (detector.HijackDetector.addKnownMOAS d 10 "1.2.3.0/24" 64502)
       20 "1.2.4.0/24" 64501
     = detector.HijackDetector.isKnownMOAS d 20 "1.2.4.0/24" 64501).
Proof.
  intros d.
  apply (moas_add_keeps_members d 10 20 "1.2.3.0/24" "1.2.4.0/24" 64502 64501).
  by vm_compute.
Defined.

(** ** The hijack detector: what a call does to the store *)

Module process_facts.
Import models detector detector.HijackDetector.
Import hijack_facts store_facts.

Lemma HasScrubbingCenter_false (asPath : list Z) :
  HasScrubbingCenter asPath = false
  ↔ ∀ asn, asn ∈ asPath → ScrubbingASNs !! asn = None.
Proof.
  split.
  - intros Hf asn Hin. destruct (ScrubbingASNs !! asn) eqn:Hk; [|done].
    assert (HasScrubbingCenter asPath = true); [|congruence].
    apply HasScrubbingCenter_spec. exists asn. by rewrite Hk.
  - intros Hall. destruct (HasScrubbingCenter asPath) eqn:Hs; [|done].
    apply HasScrubbingCenter_spec in Hs as (asn & Hin & [x Hx]).
    by rewrite (Hall asn Hin) in Hx.
Qed.

Lemma isKnownMOAS_after_lookup (d : t) (now now' : Time) (p q : string) (a : Z) :
  isKnownMOAS (after_lookup d now p) now' q a = isKnownMOAS d now' q a.
Proof. apply isKnownMOAS_redis. apply after_lookup_redis. Qed.

(** The fields every detection event carries. *)
Lemma hijack_event_fields (known : Z) (update : BGPUpdate) (severity : string)
    (now : Time) :
  let ev := hijack_event known update severity now in
  EventType ev = "hijack" ∧ EventCategory ev = "attack"
  ∧ AffectedASN ev = known ∧ AffectedPrefix ev = Prefix update
  ∧ DetectedAt ev = now ∧ IsActive ev = true ∧ CountryCode ev = ""
  ∧ Details ev !! "original_origin" = Some (VUint32 known)
  ∧ Details ev !! "hijacking_asn" = Some (VUint32 (OriginASN update))
  ∧ Details ev !! "as_path" = Some (VUint32s (ASPath update))
  ∧ Details ev !! "peer_asn" = Some (VUint32 (PeerASN update))
  ∧ Details ev !! "collector" = Some (VString (Collector update)).
Proof. repeat split. Qed.

(** A call leaves every known origin as it is. *)
Lemma Process_keeps_known_origin (d d' : t) (now : Time) (update : BGPUpdate)
    (out : emitted) (p : string) :
  Process d now update = Some (d', out) →
  known_origin d now p ≠ 0 →
  known_origin d' now p = known_origin d now p.
Proof.
  intros HP Hk.
  destruct (Announcement update) eqn:Hann;
    [|rewrite Process_skip in HP by (by left); by simplify_eq].
  destruct (decide (OriginASN update = 0)) as [H0|H0];
    [rewrite Process_skip in HP by (by right); by simplify_eq|].
  destruct (HasScrubbingCenter (ASPath update)) eqn:Hs;
    [rewrite Process_scrubbing in HP by done; by simplify_eq|].
  rewrite Process_checked in HP by done.
  destruct (known_origin d now (Prefix update) =? 0) eqn:Hk0.
  { apply Z.eqb_eq in Hk0. simplify_eq.
    destruct (decide (Prefix update = p)) as [<-|Hne]; [done|].
    rewrite known_origin_setKnownOrigin_ne by done.
    apply known_origin_after_lookup. }
  destruct (known_origin d now (Prefix update) =? OriginASN update);
    [simplify_eq; apply known_origin_after_lookup|].
  destruct (isKnownMOAS _ _ _ _);
    [simplify_eq; apply known_origin_after_lookup|].
  destruct (severity_of _ _); [|done]. cbn [mbind option_bind] in HP.
  simplify_eq. rewrite known_origin_addKnownMOAS.
  apply known_origin_after_lookup.
Qed.

End process_facts.

(** X8.  [Process] never overwrites a known origin.  Whatever update a
    call handles, a prefix for which the detector read a known origin
    (non-zero) before the call reads the same origin right after it: a
    detection only adds to the MOAS set. *)
Theorem process_keeps_known_origin
    (d d' : detector.HijackDetector.t) (now : models.Time)
    (update : models.BGPUpdate) (out : detector.emitted) (prefix : string) :
  detector.HijackDetector.Process d now update = Some (d', out) →
  (detector.HijackDetector.getKnownOrigin d now prefix).1 ≠ 0 →
  (detector.HijackDetector.getKnownOrigin d' now prefix).1
  = (detector.HijackDetector.getKnownOrigin d now prefix).1.
Proof. apply process_facts.Process_keeps_known_origin. Qed.

Lemma process_keeps_known_origin_witness :
  let d := detector.HijackDetector.setKnownOrigin
             (detector.HijackDetector.NewHijackDetector None) 0 "1.2.3.0/24" 64500 in
  let update :=
    {| models.Timestamp := 0; models.PeerASN := 6939;
       models.Prefix := "1.2.3.0/24"; models.ASPath := [6939; 64501];
       models.OriginASN := 64501; models.Communities := [];
       models.Announcement := true; models.Collector := "rrc00" |} in
  ∃ d' ev,
    detector.HijackDetector.Process d 1 update = Some (d', [ev])
    ∧ (detector.HijackDetector.getKnownOrigin d' 1 "1.2.3.0/24").1
      = (detector.HijackDetector.getKnownOrigin d 1 "1.2.3.0/24").1.
Proof.
  intros d update.
  destruct (detector.HijackDetector.Process d 1 update) as [[d' out]|] eqn:HP;
    [|by vm_compute in HP].
  destruct out as [|ev [|ev' out]]; [by vm_compute in HP| |by vm_compute in HP].
  exists d', ev. split; [done|].
  apply (process_keeps_known_origin d d' 1 update [ev] "1.2.3.0/24" HP).
  by vm_compute.
Defined.

(** X9.  When [Process] reports a hijack.  A call never panics and hands
    over at most one event.  It hands over an event exactly when the
    update is an announcement with a non-zero origin, no ASN of its path
    is a key of [ScrubbingASNs], the detector reads a known origin for the
    prefix, that origin differs from the announced one, and the announced
    origin is not in the MOAS set of the prefix.  The event then names the
    known origin as affected ASN and original origin, the announced origin
    as hijacking ASN, and carries the update's prefix, path, peer and
    collector; the detector goes on with the announced origin added to
    the MOAS set. *)
Theorem hijack_event_iff
    (d : detector.HijackDetector.t) (now : models.Time)
    (update : models.BGPUpdate) :
  let known :=
    (detector.HijackDetector.getKnownOrigin d now (models.Prefix update)).1 in
  let d1 :=
    (detector.HijackDetector.getKnownOrigin d now (models.Prefix update)).2 in
  (∃ d' out, detector.HijackDetector.Process d now update = Some (d', out)
             ∧ (length out <= 1)%nat)
  ∧ ((∃ d' ev, detector.HijackDetector.Process d now update = Some (d', [ev]))
     ↔ models.Announcement update = true
       ∧ models.OriginASN update ≠ 0
       ∧ (∀ asn, asn ∈ models.ASPath update →
                 detector.ScrubbingASNs !! asn = None)
       ∧ known ≠ 0
       ∧ known ≠ models.OriginASN update
       ∧ detector.HijackDetector.isKnownMOAS d now (models.Prefix update)
           (models.OriginASN update) = false)
  ∧ (∀ d' ev,
       detector.HijackDetector.Process d now update = Some (d', [ev]) →
       d' = detector.HijackDetector.addKnownMOAS d1 now (models.Prefix update)
              (models.OriginASN update)
       ∧ models.EventType ev = "hijack"
       ∧ models.EventCategory ev = "attack"
       ∧ models.AffectedASN ev = known
       ∧ models.AffectedPrefix ev = models.Prefix update
       ∧ models.DetectedAt ev = now
       ∧ models.IsActive ev = true
       ∧ models.CountryCode ev = ""
       ∧ models.Details ev !! "original_origin" = Some (models.VUint32 known)
       ∧ models.Details ev !! "hijacking_asn"
         = Some (models.VUint32 (models.OriginASN update))
       ∧ models.Details ev !! "as_path"
         = Some (models.VUint32s (models.ASPath update))
       ∧ models.Details ev !! "peer_asn"
         = Some (models.VUint32 (models.PeerASN update))
       ∧ models.Details ev !! "collector"
         = Some (models.VString (models.Collector update))).
Proof.
  intros known d1. split; [apply hijack_facts.Process_total|]. split.
  - rewrite <- process_facts.HasScrubbingCenter_false. split.
    + intros (d' & ev & HP).
      apply hijack_facts.Process_event_inv in HP
        as (Ha & Ho & Hs & Hk0 & Hk & Hm & _).
      rewrite process_facts.isKnownMOAS_after_lookup in Hm. done.
    + intros (Ha & Ho & Hs & Hk0 & Hk & Hm).
      rewrite <- (process_facts.isKnownMOAS_after_lookup d now now
                    (models.Prefix update)) in Hm.
      destruct (hijack_facts.Process_detect d now update Ha Ho Hs Hk0 Hk Hm)
        as (sev & _ & HP).
      by eexists _, _.
  - intros d' ev HP.
    apply hijack_facts.Process_event_inv in HP
      as (_ & _ & _ & _ & _ & _ & Hd' & sev & _ & ->).
    split; [done|]. apply process_facts.hijack_event_fields.
Qed.

(** X10.  Severity, confidence and flags of a hijack event.  With
    [known] the known origin read for the prefix and [p] the prefix length
    that [getPrefixLength] reads (the number after the slash of a prefix
    written [<address>/<n>]): when [known] or the announced origin is a
    key of [Tier1ASNs] the severity is critical, the confidence 0.9 and
    the flags are origin_change and tier1_involved; otherwise [p < 16]
    gives severity high, confidence 0.8 and the flags origin_change and
    large_prefix, and [16 <= p] gives severity medium, confidence 0.7 and
    the single flag origin_change. *)
Theorem hijack_event_severity_table
    (d d' : detector.HijackDetector.t) (now : models.Time)
    (update : models.BGPUpdate) (ev : models.BGPEvent) :
  detector.HijackDetector.Process d now update = Some (d', [ev]) →
  let known :=
    (detector.HijackDetector.getKnownOrigin d now (models.Prefix update)).1 in
  ∃ (p : Z) (flags : list string) (confidence : Q),
    detector.getPrefixLength (models.Prefix update) = Some p
    ∧ (∀ addr n, 0 <= n < 2 ^ 63 →
         models.Prefix update = addr +:+ "/" +:+ strconv.FormatUint n → p = n)
    ∧ models.Details ev !! "flags" = Some (models.VStrings flags)
    ∧ models.Details ev !! "confidence" = Some (models.VFloat64 confidence)
    ∧ (is_Some (detector.Tier1ASNs !! known)
       ∨ is_Some (detector.Tier1ASNs !! models.OriginASN update) →
       models.Severity ev = "critical" ∧ confidence = 0.9%Q
       ∧ flags = ["origin_change"; "tier1_involved"])
    ∧ (detector.Tier1ASNs !! known = None →
       detector.Tier1ASNs !! models.OriginASN update = None →
       (p < 16 →
        models.Severity ev = "high" ∧ confidence = 0.8%Q
        ∧ flags = ["origin_change"; "large_prefix"])
       ∧ (16 <= p →
          models.Severity ev = "medium" ∧ confidence = 0.7%Q
          ∧ flags = ["origin_change"])).
Proof.
  intros HP known.
  apply hijack_facts.Process_event_inv in HP
    as (_ & _ & _ & _ & _ & _ & _ & sev & Hsev & ->).
  fold (hijack_facts.known_origin d now (models.Prefix update)) in known.
  fold known in Hsev.
  destruct (hijack_facts.severity_of_cases known update) as (p & Hp & Hsev').
  rewrite Hsev in Hsev'.
  assert (sev = if detector.IsTier1 known
                   || detector.IsTier1 (models.OriginASN update)
                then models.SeverityCritical
                else if p <? 16 then models.SeverityHigh
                     else models.SeverityMedium) as -> by congruence.
  clear Hsev Hsev'.
  eexists p, _, _. split; [exact Hp|]. split.
  { intros addr n Hn Heq. rewrite Heq in Hp.
    rewrite prefix_facts.getPrefixLength_cidr in Hp by done. congruence. }
  split; [reflexivity|]. split; [reflexivity|]. split.
  - intros Ht.
    assert (detector.IsTier1 known
            || detector.IsTier1 (models.OriginASN update) = true) as ->.
    { apply orb_true_iff. by rewrite !hijack_facts.IsTier1_spec. }
    done.
  - intros Hk Ho.
    assert (detector.IsTier1 known
            || detector.IsTier1 (models.OriginASN update) = false) as ->.
    { unfold detector.IsTier1, detector.has_key. by rewrite Hk, Ho. }
    split; intros Hlt.
    + by replace (p <? 16) with true by (symmetry; apply Z.ltb_lt; done).
    + by replace (p <? 16) with false by (symmetry; apply Z.ltb_ge; done).
Qed.

Lemma hijack_event_severity_table_witness :
  let d := detector.HijackDetector.setKnownOrigin
             (detector.HijackDetector.NewHijackDetector None) 0 "10.0.0.0/8" 64500 in
  let update :=
    {| models.Timestamp := 0; models.PeerASN := 64999;
       models.Prefix := "10.0.0.0/8"; models.ASPath := [64999; 64501];
       models.OriginASN := 64501; models.Communities := [];
       models.Announcement := true; models.Collector := "rrc00" |} in
  ∃ d' ev,
    detector.HijackDetector.Process d 1 update = Some (d', [ev])
    ∧ models.Severity ev = "high"
    ∧ models.Details ev !! "confidence" = Some (models.VFloat64 0.8%Q)
    ∧ models.Details ev !! "flags"
      = Some (models.VStrings ["origin_change"; "large_prefix"]).
Proof.
  intros d update.
  destruct (detector.HijackDetector.Process d 1 update) as [[d' out]|] eqn:HP;
    [|by vm_compute in HP].
  destruct out as [|ev [|ev' out]]; [by vm_compute in HP| |by vm_compute in HP].
  exists d', ev. split; [done|].
  destruct (hijack_event_severity_table d d' 1 update ev HP)
    as (p & flags & confidence & Hp & _ & Hflags & Hconf & _ & Hrest).
  assert (p = 8) as -> by (vm_compute in Hp; congruence).
  destruct (Hrest ltac:(by vm_compute) ltac:(by vm_compute)) as [Hhigh _].
  destruct (Hhigh ltac:(lia)) as (Hsev & -> & ->).
  done.
Defined.

(** ** The hijack detector: sequences of announcements *)

Module sequence_facts.
Import models detector detector.HijackDetector.
Import hijack_facts key_facts redis_facts store_facts process_facts strconv_facts.

(** The detector tracks origin [a] for prefix [p] until [expiry]: the
    external store holds it under the key of the prefix, and the local
    cache holds nothing else for the prefix. *)
Definition tracked (d : t) (p : string) (a : Z) (expiry : Time) : Prop :=
  ∃ c, redis d = Some c
       ∧ redis.db c !! originKey p
         = Some (redis.Str (strconv.FormatUint a), Some expiry)
       ∧ (cache d !! p = Some a ∨ cache d !! p = None).

Lemma live_db (now : Time) (c : redis.Client) (key : string)
    (x : option (redis.entry * option Time)) :
  redis.db c !! key = x →
  redis.live now c key
  = match x with
    | Some (e, None) => Some e
    | Some (e, Some expiry) => if now <? expiry then Some e else None
    | None => None
    end.
Proof. by intros <-. Qed.

Lemma tracked_known (d : t) (p : string) (a : Z) (expiry now : Time) :
  tracked d p a expiry → 0 <= a < 2 ^ 32 → now < expiry →
  known_origin d now p = a.
Proof.
  intros (c & Hr & Hdb & Hcache) Ha Hnow.
  unfold known_origin, getKnownOrigin.
  assert (Hc : cached d now p = Some a ∨ cached d now p = None).
  { unfold cached. destruct Hcache as [-> | ->]; [|by right].
    destruct (cacheTime d !! p); [|by right].
    destruct (_ <? _); [by left|by right]. }
  destruct Hc as [-> | ->]; [done|]. rewrite Hr.
  unfold getUint64, redis.Get. rewrite (live_db now c _ _ Hdb).
  replace (now <? expiry) with true by (symmetry; apply Z.ltb_lt; lia).
  rewrite ParseUint_FormatUint by lia. cbn [fst].
  by apply to_uint32_small.
Qed.

Lemma tracked_after_lookup (d : t) (p : string) (a : Z) (expiry now : Time) :
  tracked d p a expiry → 0 <= a < 2 ^ 32 → now < expiry →
  tracked (after_lookup d now p) p a expiry.
Proof.
  intros Ht Ha Hnow.
  pose proof (tracked_known d p a expiry now Ht Ha Hnow) as Hk.
  destruct Ht as (c & Hr & Hdb & Hcache).
  unfold known_origin in Hk. unfold after_lookup.
  unfold getKnownOrigin in *.
  destruct (cached d now p); [by exists c|].
  rewrite Hr in *.
  destruct (getUint64 now c (originKey p)); [|by exists c].
  cbn [fst snd] in *. subst a. exists c.
  split; [done|]. split; [done|]. left. cbn [cache store].
  by rewrite lookup_insert_eq.
Qed.

Lemma tracked_setKnownOrigin (d : t) (p : string) (a : Z) (now : Time)
    (c : redis.Client) :
  redis d = Some c →
  tracked (setKnownOrigin d now p a) p a (now + 48 * time.Hour).
Proof.
  intros Hr. unfold tracked. rewrite setKnownOrigin_redis, Hr.
  eexists. split; [done|]. cbn [redis.Set_ redis.db]. split.
  - by rewrite lookup_insert_eq.
  - left. unfold setKnownOrigin. cbn [redis store]. rewrite Hr.
    cbn [cache with_redis store]. by rewrite lookup_insert_eq.
Qed.

Lemma db_SAdd_ne (now : Time) (c : redis.Client) (key key' member : string) :
  key ≠ key' →
  redis.db (redis.SAdd now c key member) !! key' = redis.db c !! key'.
Proof.
  intros Hne. unfold redis.SAdd.
  destruct (redis.live now c key) as [[v|s]|]; [done| |];
    cbn [redis.db]; by rewrite lookup_insert_ne.
Qed.

Lemma db_Expire_ne (now : Time) (c : redis.Client) (key key' : string) (ttl : Z) :
  key ≠ key' →
  redis.db (redis.Expire now c key ttl) !! key' = redis.db c !! key'.
Proof.
  intros Hne. unfold redis.Expire.
  destruct (redis.live now c key); [|done].
  cbn [redis.db]. by rewrite lookup_insert_ne.
Qed.

Lemma tracked_addKnownMOAS (d : t) (p q : string) (a b : Z)
    (expiry now : Time) :
  tracked d p a expiry → tracked (addKnownMOAS d now q b) p a expiry.
Proof.
  intros (c & Hr & Hdb & Hcache). unfold addKnownMOAS. rewrite Hr.
  eexists. split; [done|]. split; [|done].
  rewrite db_Expire_ne, db_SAdd_ne; [done|..];
    intros H; symmetry in H; by apply originKey_originsKey in H.
Qed.

(** A prefix the detector knows nothing about. *)
Definition unseen (d : t) (p : string) : Prop :=
  cache d !! p = None
  ∧ ∀ c, redis d = Some c →
         redis.db c !! originKey p = None ∧ redis.db c !! originsKey p = None.

Lemma unseen_known (d : t) (p : string) (now : Time) :
  unseen d p → getKnownOrigin d now p = (0, d).
Proof.
  intros [Hc Hs]. unfold getKnownOrigin, cached. rewrite Hc.
  destruct (redis d) as [c|] eqn:Hr; [|done].
  destruct (Hs c eq_refl) as [Ho _].
  unfold getUint64, redis.Get. by rewrite (live_db now c _ _ Ho).
Qed.

End sequence_facts.

(** X11.  One prefix, four announcements, with an external store.  Let a
    detector with an external store see a prefix it knows nothing about
    announced by origin [a] at [t1] and again at [t2], then by another
    origin [b] at [t3] and again at [t4], with [t1 <= t2 <= t3 <= t4] and
    [t4] less than 48 h after [t1] (all announcements with scrubber-free
    paths, and [a], [b] non-zero 32-bit numbers).  The first, second and
    fourth call hand over nothing; the third hands over exactly one
    event, whose affected ASN is [a] and whose hijacking ASN is [b]; and
    after the four calls the known origin is still [a]. *)
Theorem hijack_sequence_with_store
    (d : detector.HijackDetector.t) (c : redis.Client)
    (t1 t2 t3 t4 : models.Time) (prefix : string) (a b : Z)
    (u1 u2 u3 u4 : models.BGPUpdate) :
  detector.HijackDetector.redis d = Some c →
  sequence_facts.unseen d prefix →
  Forall (λ u, models.Announcement u = true ∧ models.Prefix u = prefix
               ∧ detector.HasScrubbingCenter (models.ASPath u) = false)
         [u1; u2; u3; u4] →
  models.OriginASN u1 = a → models.OriginASN u2 = a →
  models.OriginASN u3 = b → models.OriginASN u4 = b →
  0 < a < 2 ^ 32 → 0 < b < 2 ^ 32 → a ≠ b →
  t1 <= t2 <= t3 → t3 <= t4 < t1 + 48 * time.Hour →
  ∃ d' ev,
    detector.HijackDetector.run d [(t1, u1); (t2, u2); (t3, u3); (t4, u4)]
    = Some (d', [[]; []; [ev]; []])
    ∧ models.AffectedASN ev = a
    ∧ models.Details ev !! "hijacking_asn" = Some (models.VUint32 b)
    ∧ (detector.HijackDetector.getKnownOrigin d' t4 prefix).1 = a.
Proof.
  intros Hr Hunseen Hall Ho1 Ho2 Ho3 Ho4 Ha Hb Hab Ht Ht4.
  apply Forall_cons in Hall as [(Ha1 & Hp1 & Hs1) Hall].
  apply Forall_cons in Hall as [(Ha2 & Hp2 & Hs2) Hall].
  apply Forall_cons in Hall as [(Ha3 & Hp3 & Hs3) Hall].
  apply Forall_cons in Hall as [(Ha4 & Hp4 & Hs4) _].
  set (exp := t1 + 48 * time.Hour).
  (* first call: the origin is learnt *)
  pose proof (sequence_facts.unseen_known d prefix t1 Hunseen) as Hk1.
  assert (HP1 : detector.HijackDetector.Process d t1 u1
                = Some (detector.HijackDetector.setKnownOrigin d t1 prefix a, [])).
  { rewrite hijack_facts.Process_learn; try done; try lia;
      unfold hijack_facts.known_origin, hijack_facts.after_lookup;
      rewrite Hp1, Hk1; [by rewrite Ho1|done]. }
  set (d1 := detector.HijackDetector.setKnownOrigin d t1 prefix a) in *.
  assert (Htr1 : sequence_facts.tracked d1 prefix a exp)
    by (by eapply sequence_facts.tracked_setKnownOrigin).
  (* second call: same origin *)
  set (d2 := hijack_facts.after_lookup d1 t2 prefix).
  assert (HP2 : detector.HijackDetector.Process d1 t2 u2 = Some (d2, [])).
  { unfold d2. rewrite <- Hp2. apply hijack_facts.Process_same; try done; try lia.
    rewrite Hp2, Ho2.
    apply (sequence_facts.tracked_known d1 prefix a exp); [done|lia|unfold exp; lia]. }
  assert (Htr2 : sequence_facts.tracked d2 prefix a exp)
    by (apply sequence_facts.tracked_after_lookup; [done|lia|unfold exp; lia]).
  (* the MOAS key is still free *)
  assert (Hr2 : detector.HijackDetector.redis d2
                = Some (redis.Set_ t1 c (detector.HijackDetector.originKey prefix)
                          (strconv.FormatUint a) (48 * time.Hour))).
  { unfold d2. rewrite (proj1 (store_facts.after_lookup_redis d1 t2 prefix)).
    unfold d1. by rewrite store_facts.setKnownOrigin_redis, Hr. }
  destruct Hunseen as [_ Hfree]. destruct (Hfree c Hr) as [_ Hmoas].
  assert (Hlive : ∀ now, redis.live now
                    (redis.Set_ t1 c (detector.HijackDetector.originKey prefix)
                       (strconv.FormatUint a) (48 * time.Hour))
                    (detector.HijackDetector.originsKey prefix) = None).
  { intros now. rewrite redis_facts.live_Set_ne
      by apply key_facts.originKey_originsKey.
    by rewrite (sequence_facts.live_db now c _ _ Hmoas). }
  (* third call: the detection *)
  set (d2' := hijack_facts.after_lookup d2 t3 prefix).
  assert (Hr2' : detector.HijackDetector.redis d2' = detector.HijackDetector.redis d2)
    by apply store_facts.after_lookup_redis.
  assert (Hk3 : hijack_facts.known_origin d2 t3 prefix = a)
    by (apply (sequence_facts.tracked_known d2 prefix a exp);
        [done|lia|unfold exp; lia]).
  destruct (hijack_facts.Process_detect d2 t3 u3) as (sev & _ & HP3);
    try done; try lia.
  { rewrite Hp3, Hk3. lia. }
  { rewrite Hp3, Hk3, Ho3. done. }
  { rewrite Hp3. fold d2'. unfold detector.HijackDetector.isKnownMOAS.
    rewrite Hr2', Hr2. unfold redis.SIsMember. by rewrite Hlive. }
  rewrite Hp3, Ho3, Hk3 in HP3. fold d2' in HP3.
  set (d3 := detector.HijackDetector.addKnownMOAS d2' t3 prefix b) in *.
  assert (Htr3 : sequence_facts.tracked d3 prefix a exp).
  { apply sequence_facts.tracked_addKnownMOAS.
    apply sequence_facts.tracked_after_lookup; [done|lia|unfold exp; lia]. }
  (* fourth call: the origin is now in the MOAS set *)
  set (d4 := hijack_facts.after_lookup d3 t4 prefix).
  assert (Hk4 : hijack_facts.known_origin d3 t4 prefix = a)
    by (apply (sequence_facts.tracked_known d3 prefix a exp);
        [done|lia|unfold exp; lia]).
  assert (HP4 : detector.HijackDetector.Process d3 t4 u4 = Some (d4, [])).
  { unfold d4. rewrite <- Hp4. apply hijack_facts.Process_moas; try done; try lia.
    - rewrite Hp4, Hk4. lia.
    - rewrite Hp4, Hk4, Ho4. done.
    - rewrite Hp4, Ho4, process_facts.isKnownMOAS_after_lookup. unfold d3.
      eapply store_facts.isKnownMOAS_added.
      + by rewrite Hr2', Hr2.
      + unfold redis.Get. by rewrite Hlive.
      + lia. }
  exists d4, (hijack_facts.hijack_event a u3 sev t3).
  split.
  { cbn [detector.HijackDetector.run]. rewrite HP1. cbn [mbind option_bind].
    rewrite HP2. cbn [mbind option_bind]. rewrite HP3. cbn [mbind option_bind].
    rewrite HP4. done. }
  split; [done|]. split; [by rewrite <- Ho3|].
  fold (hijack_facts.known_origin d4 t4 prefix). unfold d4.
  by rewrite store_facts.known_origin_after_lookup.
Qed.

Lemma hijack_sequence_with_store_witness :
  let announce (origin : Z) :=
    {| models.Timestamp := 0; models.PeerASN := 64999;
       models.Prefix := "1.2.3.0/24"; models.ASPath := [64999; origin];
       models.OriginASN := origin; models.Communities := [];
       models.Announcement := true; models.Collector := "rrc00" |} in
  ∃ d' ev,
    detector.HijackDetector.run
      (detector.HijackDetector.NewHijackDetector (Some {| redis.db := ∅ |}))
      [(0, announce 64500); (time.Minute, announce 64500);
       (10 * time.Minute, announce 64501); (47 * time.Hour, announce 64501)]
    = Some (d', [[]; []; [ev]; []])
    ∧ models.AffectedASN ev = 64500
    ∧ models.Details ev !! "hijacking_asn" = Some (models.VUint32 64501)
    ∧ (detector.HijackDetector.getKnownOrigin d' (47 * time.Hour) "1.2.3.0/24").1
      = 64500.
Proof.
  intros announce.
  apply (hijack_sequence_with_store
           (detector.HijackDetector.NewHijackDetector (Some {| redis.db := ∅ |}))
           {| redis.db := ∅ |}
           0 time.Minute (10 * time.Minute) (47 * time.Hour)
           "1.2.3.0/24" 64500 64501
           (announce 64500) (announce 64500) (announce 64501) (announce 64501)).
  - reflexivity.
  - split; [reflexivity|]. intros c Hc. injection Hc as <-. by split.
  - repeat constructor; by vm_compute.
  - reflexivity.
  - reflexivity.
  - reflexivity.
  - reflexivity.
  - lia.
  - lia.
  - lia.
  - by vm_compute.
  - by vm_compute.
Defined.

(** X12.  The same prefix without an external store.  A detector without
    an external store that learns origin [a] for an unseen prefix at [t1]
    reports an announcement of the prefix by another origin [b] at every
    time within the cache lifetime of [t1], again and again: with no MOAS
    history the second announcement by [b] gives a second event.  Both
    events name [a] as affected ASN, and the calls after the first leave
    the detector unchanged. *)
Theorem hijack_sequence_without_store
    (d : detector.HijackDetector.t) (t1 t2 t3 : models.Time)
    (prefix : string) (a b : Z) (u1 u2 u3 : models.BGPUpdate) :
  detector.HijackDetector.redis d = None →
  detector.HijackDetector.cache d !! prefix = None →
  Forall (λ u, models.Announcement u = true ∧ models.Prefix u = prefix
               ∧ detector.HasScrubbingCenter (models.ASPath u) = false)
         [u1; u2; u3] →
  models.OriginASN u1 = a → models.OriginASN u2 = b → models.OriginASN u3 = b →
  a ≠ 0 → b ≠ 0 → a ≠ b →
  t2 - t1 < detector.HijackDetector.cacheTTL d →
  t3 - t1 < detector.HijackDetector.cacheTTL d →
  ∃ ev2 ev3,
    detector.HijackDetector.run d [(t1, u1); (t2, u2); (t3, u3)]
    = Some (detector.HijackDetector.setKnownOrigin d t1 prefix a,
            [[]; [ev2]; [ev3]])
    ∧ models.AffectedASN ev2 = a ∧ models.AffectedASN ev3 = a
    ∧ models.Details ev2 !! "hijacking_asn" = Some (models.VUint32 b)
    ∧ models.Details ev3 !! "hijacking_asn" = Some (models.VUint32 b).
Proof.
  intros Hr Hcache Hall Ho1 Ho2 Ho3 Ha Hb Hab Ht2 Ht3.
  apply Forall_cons in Hall as [(Ha1 & Hp1 & Hs1) Hall].
  apply Forall_cons in Hall as [(Ha2 & Hp2 & Hs2) Hall].
  apply Forall_cons in Hall as [(Ha3 & Hp3 & Hs3) _].
  assert (Hk1 : detector.HijackDetector.getKnownOrigin d t1 prefix = (0, d)).
  { apply store_facts.getKnownOrigin_no_store; [|done].
    unfold detector.HijackDetector.cached. by rewrite Hcache. }
  set (d1 := detector.HijackDetector.setKnownOrigin d t1 prefix a).
  assert (HP1 : detector.HijackDetector.Process d t1 u1 = Some (d1, [])).
  { rewrite hijack_facts.Process_learn; try done; try lia;
      unfold hijack_facts.known_origin, hijack_facts.after_lookup;
      rewrite Hp1, Hk1; [by rewrite Ho1|done]. }
  assert (Hr1 : detector.HijackDetector.redis d1 = None)
    by (unfold d1; by rewrite store_facts.setKnownOrigin_redis, Hr).
  assert (Hread : ∀ t, t - t1 < detector.HijackDetector.cacheTTL d →
            detector.HijackDetector.getKnownOrigin d1 t prefix = (a, d1)).
  { intros t Hlt. apply store_facts.getKnownOrigin_hit.
    unfold d1, detector.HijackDetector.setKnownOrigin.
    cbn [detector.HijackDetector.redis detector.HijackDetector.store].
    rewrite Hr, store_facts.cached_store_eq.
    by replace (t - t1 <? detector.HijackDetector.cacheTTL d) with true
      by (symmetry; apply Z.ltb_lt; lia). }
  assert (Hstep : ∀ t u,
            models.Announcement u = true → models.Prefix u = prefix →
            detector.HasScrubbingCenter (models.ASPath u) = false →
            models.OriginASN u = b →
            t - t1 < detector.HijackDetector.cacheTTL d →
            ∃ sev, detector.HijackDetector.Process d1 t u
                   = Some (d1, [hijack_facts.hijack_event a u sev t])).
  { intros t u Hau Hpu Hsu Hou Hlt.
    destruct (hijack_facts.Process_detect d1 t u) as (sev & _ & HP);
      try done; try lia;
      unfold hijack_facts.known_origin, hijack_facts.after_lookup in *;
      rewrite ?Hpu, ?(Hread t Hlt), ?Hou; cbn [fst snd]; try done.
    - unfold detector.HijackDetector.isKnownMOAS. by rewrite Hr1.
    - exists sev. rewrite Hpu, (Hread t Hlt), Hou in HP. cbn [fst snd] in HP.
      unfold detector.HijackDetector.addKnownMOAS in HP.
      by rewrite Hr1 in HP. }
  destruct (Hstep t2 u2 Ha2 Hp2 Hs2 Ho2 Ht2) as (sev2 & HP2).
  destruct (Hstep t3 u3 Ha3 Hp3 Hs3 Ho3 Ht3) as (sev3 & HP3).
  eexists _, _. split.
  { cbn [detector.HijackDetector.run]. rewrite HP1. cbn [mbind option_bind].
    rewrite HP2. cbn [mbind option_bind]. rewrite HP3. done. }
  split; [done|]. split; [done|]. split; [by rewrite <- Ho2|by rewrite <- Ho3].
Qed.

Lemma hijack_sequence_without_store_witness :
  let announce (origin : Z) :=
    {| models.Timestamp := 0; models.PeerASN := 64999;
       models.Prefix := "1.2.3.0/24"; models.ASPath := [64999; origin];
       models.OriginASN := origin; models.Communities := [];
       models.Announcement := true; models.Collector := "rrc00" |} in
  let d := detector.HijackDetector.NewHijackDetector None in
  ∃ ev2 ev3,
    detector.HijackDetector.run d
      [(0, announce 64500); (time.Minute, announce 64501);
       (2 * time.Minute, announce 64501)]
    = Some (detector.HijackDetector.setKnownOrigin d 0 "1.2.3.0/24" 64500,
            [[]; [ev2]; [ev3]])
    ∧ models.AffectedASN ev2 = 64500 ∧ models.AffectedASN ev3 = 64500
    ∧ models.Details ev2 !! "hijacking_asn" = Some (models.VUint32 64501)
    ∧ models.Details ev3 !! "hijacking_asn" = Some (models.VUint32 64501).
Proof.
  intros announce d.
  apply (hijack_sequence_without_store d 0 time.Minute (2 * time.Minute)
           "1.2.3.0/24" 64500 64501
           (announce 64500) (announce 64501) (announce 64501)).
  - reflexivity.
  - reflexivity.
  - repeat constructor; by vm_compute.
  - reflexivity.
  - reflexivity.
  - reflexivity.
  - lia.
  - lia.
  - lia.
  - by vm_compute.
  - by vm_compute.
Defined.

(** X13.  An origin change after the cache lifetime, without an external
    store.  When a detector without an external store learnt origin [a]
    for a prefix at [t1] and sees the prefix announced by another origin
    [b] once [cacheTTL] has elapsed, it hands over no event: it has
    forgotten [a], and learns [b] as the known origin instead. *)
Theorem hijack_relearn_after_cache_lifetime
    (d : detector.HijackDetector.t) (t1 t2 : models.Time)
    (prefix : string) (a b : Z) (u : models.BGPUpdate) :
  detector.HijackDetector.redis d = None →
  models.Announcement u = true → models.Prefix u = prefix →
  detector.HasScrubbingCenter (models.ASPath u) = false →
  models.OriginASN u = b → b ≠ 0 →
  0 < detector.HijackDetector.cacheTTL d <= t2 - t1 →
  let d1 := detector.HijackDetector.setKnownOrigin d t1 prefix a in
  let d2 := detector.HijackDetector.setKnownOrigin d1 t2 prefix b in
  detector.HijackDetector.Process d1 t2 u = Some (d2, [])
  ∧ (detector.HijackDetector.getKnownOrigin d2 t2 prefix).1 = b.
Proof.
  intros Hr Hann Hp Hs Ho Hb Httl d1 d2.
  assert (Hk : detector.HijackDetector.getKnownOrigin d1 t2 prefix = (0, d1)).
  { unfold d1. apply store_facts.getKnownOrigin_no_store.
    - unfold detector.HijackDetector.setKnownOrigin.
      cbn [detector.HijackDetector.redis detector.HijackDetector.store].
      rewrite Hr, store_facts.cached_store_eq.
      by replace (t2 - t1 <? detector.HijackDetector.cacheTTL d) with false
        by (symmetry; apply Z.ltb_ge; lia).
    - by rewrite store_facts.setKnownOrigin_redis, Hr. }
  split.
  - rewrite hijack_facts.Process_learn; try done; try lia;
      unfold hijack_facts.known_origin, hijack_facts.after_lookup;
      rewrite Hp, Hk; [by rewrite Ho|done].
  - assert (Hr1 : detector.HijackDetector.redis d1 = None)
      by (unfold d1; by rewrite store_facts.setKnownOrigin_redis, Hr).
    rewrite (store_facts.getKnownOrigin_hit d2 t2 prefix b); [done|].
    unfold d2, detector.HijackDetector.setKnownOrigin.
    cbn [detector.HijackDetector.redis detector.HijackDetector.store].
    rewrite Hr1, store_facts.cached_store_eq.
    replace (t2 - t2) with 0 by lia.
    assert (detector.HijackDetector.cacheTTL d1 = detector.HijackDetector.cacheTTL d)
      as -> by (unfold d1, detector.HijackDetector.setKnownOrigin;
                cbn [detector.HijackDetector.redis detector.HijackDetector.store];
                by rewrite Hr).
    by replace (0 <? detector.HijackDetector.cacheTTL d) with true
      by (symmetry; apply Z.ltb_lt; lia).
Qed.

Lemma hijack_relearn_after_cache_lifetime_witness :
  let u :=
    {| models.Timestamp := 0; models.PeerASN := 64999;
       models.Prefix := "1.2.3.0/24"; models.ASPath := [64999; 64501];
       models.OriginASN := 64501; models.Communities := [];
       models.Announcement := true; models.Collector := "rrc00" |} in
  let d := detector.HijackDetector.NewHijackDetector None in
  let d1 := detector.HijackDetector.setKnownOrigin d 0 "1.2.3.0/24" 64500 in
  let d2 := detector.HijackDetector.setKnownOrigin d1 (5 * time.Minute)
              "1.2.3.0/24" 64501 in
  detector.HijackDetector.Process d1 (5 * time.Minute) u = Some (d2, [])
  ∧ (detector.HijackDetector.getKnownOrigin d2 (5 * time.Minute) "1.2.3.0/24").1
    = 64501.
Proof.
  intros u d.
  apply (hijack_relearn_after_cache_lifetime d 0 (5 * time.Minute)
           "1.2.3.0/24" 64500 64501 u);
    try reflexivity; try lia; by vm_compute.
Defined.

(** ** The leak detector *)

Module leak_facts.
Import models detector detector.LeakDetector hijack_facts.

(** The window of three consecutive ASNs at index [i] shows the leak
    pattern: Tier-1, then an ASN that is neither Tier-1 nor a scrubbing
    centre, then Tier-1. *)
Definition leak_at (asPath : list Z) (i : nat) (asn1 asn2 asn3 : Z) : Prop :=
  asPath !! i = Some asn1 ∧ asPath !! (i + 1)%nat = Some asn2
  ∧ asPath !! (i + 2)%nat = Some asn3
  ∧ is_Some (Tier1ASNs !! asn1) ∧ is_Some (Tier1ASNs !! asn3)
  ∧ Tier1ASNs !! asn2 = None ∧ ScrubbingASNs !! asn2 = None.

(** ... and no window before it does. *)
Definition first_leak_at (asPath : list Z) (i : nat) (asn1 asn2 asn3 : Z) : Prop :=
  leak_at asPath i asn1 asn2 asn3
  ∧ ∀ j b1 b2 b3, (j < i)%nat → ¬ leak_at asPath j b1 b2 b3.

Definition window_test (asn1 asn2 asn3 : Z) : bool :=
  IsTier1 asn1 && IsTier1 asn3 && negb (IsTier1 asn2) && negb (IsScrubbing asn2).

Lemma window_test_spec (asn1 asn2 asn3 : Z) :
  window_test asn1 asn2 asn3 = true
  ↔ is_Some (Tier1ASNs !! asn1) ∧ is_Some (Tier1ASNs !! asn3)
    ∧ Tier1ASNs !! asn2 = None ∧ ScrubbingASNs !! asn2 = None.
Proof.
  unfold window_test. rewrite !andb_true_iff, !negb_true_iff.
  rewrite !IsTier1_spec.
  assert (H2 : IsTier1 asn2 = false ↔ Tier1ASNs !! asn2 = None).
  { unfold IsTier1, has_key. by destruct (Tier1ASNs !! asn2). }
  assert (H3 : IsScrubbing asn2 = false ↔ ScrubbingASNs !! asn2 = None).
  { unfold IsScrubbing, has_key. by destruct (ScrubbingASNs !! asn2). }
  rewrite H2, H3. tauto.
Qed.

(** One turn of the loop, with the nested conditions folded into one
    test. *)
Lemma leakLoop_step (asPath : list Z) (k i : nat) (asn1 asn2 asn3 : Z) :
  asPath !! i = Some asn1 → asPath !! (i + 1)%nat = Some asn2 →
  asPath !! (i + 2)%nat = Some asn3 →
  leakLoop asPath (S k) i
  = if window_test asn1 asn2 asn3 then Some (asn2, asn1, asn3)
    else leakLoop asPath k (S i).
Proof.
  intros H1 H2 H3. cbn [leakLoop]. rewrite H1, H2, H3. cbn [mbind option_bind].
  unfold window_test.
  destruct (IsTier1 asn1), (IsTier1 asn3), (IsTier1 asn2), (IsScrubbing asn2); done.
Qed.

Lemma leakLoop_spec (asPath : list Z) :
  ∀ todo i : nat,
    (i + todo + 2 <= length asPath)%nat ∨ todo = O →
    (∃ j asn1 asn2 asn3,
        (i <= j)%nat ∧ leak_at asPath j asn1 asn2 asn3
        ∧ (∀ l b1 b2 b3, (i <= l < j)%nat → ¬ leak_at asPath l b1 b2 b3)
        ∧ leakLoop asPath todo i = Some (asn2, asn1, asn3))
    ∨ ((∀ l b1 b2 b3, (i <= l < i + todo)%nat → ¬ leak_at asPath l b1 b2 b3)
       ∧ leakLoop asPath todo i = Some (0, 0, 0)).
Proof.
  induction todo as [|k IH]; intros i Hlen.
  - right. split; [intros; lia|done].
  - destruct Hlen as [Hlen|?]; [|done].
    destruct (lookup_lt_is_Some_2 asPath i ltac:(lia)) as [a1 H1].
    destruct (lookup_lt_is_Some_2 asPath (i + 1) ltac:(lia)) as [a2 H2].
    destruct (lookup_lt_is_Some_2 asPath (i + 2) ltac:(lia)) as [a3 H3].
    rewrite (leakLoop_step asPath k i a1 a2 a3) by done.
    destruct (window_test a1 a2 a3) eqn:Hw.
    + left. exists i, a1, a2, a3. split; [lia|]. split.
      * apply window_test_spec in Hw. do 3 (split; [done|]). exact Hw.
      * split; [intros; lia|done].
    + assert (Hno : ∀ b1 b2 b3, ¬ leak_at asPath i b1 b2 b3).
      { intros b1 b2 b3 (E1 & E2 & E3 & Hm). simplify_eq.
        apply window_test_spec in Hm. congruence. }
      destruct (IH (S i) ltac:(left; lia))
        as [(j & b1 & b2 & b3 & Hj & Hat & Hbefore & Hres)|[Hnone Hres]].
      * left. exists j, b1, b2, b3. split; [lia|]. split; [done|].
        split; [|done]. intros l c1 c2 c3 Hl.
        destruct (decide (l = i)) as [->|]; [apply Hno|apply Hbefore; lia].
      * right. split; [|done]. intros l c1 c2 c3 Hl.
        destruct (decide (l = i)) as [->|]; [apply Hno|apply Hnone; lia].
Qed.

Lemma leak_at_bound (asPath : list Z) (i : nat) (a1 a2 a3 : Z) :
  leak_at asPath i a1 a2 a3 → (i + 2 < length asPath)%nat.
Proof. intros (_ & _ & H3 & _). by apply lookup_lt_Some in H3. Qed.

Lemma findLeakPattern_spec (asPath : list Z) :
  (∃ i asn1 asn2 asn3,
      first_leak_at asPath i asn1 asn2 asn3
      ∧ findLeakPattern asPath = Some (asn2, asn1, asn3))
  ∨ ((∀ i b1 b2 b3, ¬ leak_at asPath i b1 b2 b3)
     ∧ findLeakPattern asPath = Some (0, 0, 0)).
Proof.
  unfold findLeakPattern.
  destruct (leakLoop_spec asPath (length asPath - 2) 0)
    as [(j & a1 & a2 & a3 & _ & Hat & Hbefore & Hres)|[Hnone Hres]].
  { destruct (decide (length asPath - 2 = 0)%nat); [by right|left; lia]. }
  - left. exists j, a1, a2, a3. split; [|done]. split; [done|].
    intros l b1 b2 b3 Hl. apply Hbefore. lia.
  - right. split; [|done]. intros i b1 b2 b3 Hat.
    apply (Hnone i b1 b2 b3); [|done].
    apply leak_at_bound in Hat. lia.
Qed.

Lemma first_leak_at_unique (asPath : list Z) (i j : nat) (a1 a2 a3 b1 b2 b3 : Z) :
  first_leak_at asPath i a1 a2 a3 → first_leak_at asPath j b1 b2 b3 →
  i = j ∧ a1 = b1 ∧ a2 = b2 ∧ a3 = b3.
Proof.
  intros [Hi Hi'] [Hj Hj'].
  assert (i = j) as ->.
  { destruct (Nat.lt_trichotomy i j) as [H|[H|H]]; [|done|].
    - by destruct (Hj' i a1 a2 a3 H).
    - by destruct (Hi' j b1 b2 b3 H). }
  destruct Hi as (E1 & E2 & E3 & _), Hj as (F1 & F2 & F3 & _).
  by simplify_eq.
Qed.

(** The event of a leak. *)
Definition leak_event (update : BGPUpdate) (leakASN tier1Before tier1After : Z)
    (now : Time) : BGPEvent :=
  event EventTypeLeak SeverityHigh CategoryMisconfiguration
    leakASN (Prefix update) now
    (list_to_map
       [ ("pattern", VString "tier1_transit_leak");
         ("leaking_asn", VUint32 leakASN);
         ("upstream_tier1", VUint32 tier1Before);
         ("downstream_tier1", VUint32 tier1After);
         ("as_path", VUint32s (ASPath update));
         ("peer_asn", VUint32 (PeerASN update));
         ("collector", VString (Collector update));
         ("confidence", VFloat64 0.85%Q) ]).

Lemma leak_Process_cases (now : Time) (update : BGPUpdate) :
  ∃ asn2 asn1 asn3,
    findLeakPattern (ASPath update) = Some (asn2, asn1, asn3)
    ∧ LeakDetector.Process now update
      = if negb (Announcement update)
           || (Z.of_nat (length (ASPath update)) <? 3)
           || (asn2 =? 0)
        then Some []
        else Some [leak_event update asn2 asn1 asn3 now].
Proof.
  assert (Hf : ∃ r, findLeakPattern (ASPath update) = Some r).
  { destruct (findLeakPattern_spec (ASPath update))
      as [(? & ? & ? & ? & _ & ->)|[_ ->]]; by eexists. }
  destruct Hf as [[[asn2 asn1] asn3] Hf].
  exists asn2, asn1, asn3. split; [done|].
  unfold LeakDetector.Process. rewrite Hf. cbn [mbind option_bind].
  destruct (negb (Announcement update)
            || (Z.of_nat (length (ASPath update)) <? 3)); [done|].
  cbn [orb]. by destruct (asn2 =? 0).
Qed.

End leak_facts.

(** X14.  What [findLeakPattern] returns.  The scan never reads outside
    the path.  If some window of three consecutive ASNs has a Tier-1 ASN
    first and last and, in the middle, an ASN that is neither Tier-1 nor a
    scrubbing centre, the result is the middle, first and last ASN of the
    first such window; if no window has, the result is (0, 0, 0). *)
Theorem findLeakPattern_first_window (asPath : list Z) :
  (∃ i asn1 asn2 asn3,
      leak_facts.first_leak_at asPath i asn1 asn2 asn3
      ∧ detector.LeakDetector.findLeakPattern asPath = Some (asn2, asn1, asn3))
  ∨ ((∀ i asn1 asn2 asn3, ¬ leak_facts.leak_at asPath i asn1 asn2 asn3)
     ∧ detector.LeakDetector.findLeakPattern asPath = Some (0, 0, 0)).
Proof. apply leak_facts.findLeakPattern_spec. Qed.

(** X15.  When the leak detector reports.  A call never panics and hands
    over at most one event.  It hands over an event exactly when the
    update is an announcement whose path has a first leak window with a
    non-zero middle ASN (0 is how [findLeakPattern] says that it found
    nothing, so a first window around ASN 0 silences the update, later
    windows included).  The event has severity high and category
    misconfiguration, names the middle ASN as affected and leaking ASN
    and the two Tier-1 ASNs as upstream and downstream, has confidence
    0.85, and carries the update's prefix, path, peer and collector. *)
Theorem leak_event_iff (now : models.Time) (update : models.BGPUpdate) :
  (detector.LeakDetector.Process now update = Some []
   ∨ ∃ ev, detector.LeakDetector.Process now update = Some [ev])
  ∧ (∀ ev,
       detector.LeakDetector.Process now update = Some [ev]
       ↔ models.Announcement update = true
         ∧ ∃ i asn1 asn2 asn3,
             leak_facts.first_leak_at (models.ASPath update) i asn1 asn2 asn3
             ∧ asn2 ≠ 0
             ∧ ev = leak_facts.leak_event update asn2 asn1 asn3 now)
  ∧ (∀ asn1 asn2 asn3,
       let ev := leak_facts.leak_event update asn2 asn1 asn3 now in
       models.EventType ev = "leak" ∧ models.Severity ev = "high"
       ∧ models.EventCategory ev = "misconfiguration"
       ∧ models.AffectedASN ev = asn2
       ∧ models.AffectedPrefix ev = models.Prefix update
       ∧ models.DetectedAt ev = now ∧ models.IsActive ev = true
       ∧ models.CountryCode ev = ""
       ∧ models.Details ev !! "pattern"
         = Some (models.VString "tier1_transit_leak")
       ∧ models.Details ev !! "leaking_asn" = Some (models.VUint32 asn2)
       ∧ models.Details ev !! "upstream_tier1" = Some (models.VUint32 asn1)
       ∧ models.Details ev !! "downstream_tier1" = Some (models.VUint32 asn3)
       ∧ models.Details ev !! "as_path"
         = Some (models.VUint32s (models.ASPath update))
       ∧ models.Details ev !! "peer_asn"
         = Some (models.VUint32 (models.PeerASN update))
       ∧ models.Details ev !! "collector"
         = Some (models.VString (models.Collector update))
       ∧ models.Details ev !! "confidence" = Some (models.VFloat64 0.85%Q)).
Proof.
  destruct (leak_facts.leak_Process_cases now update)
    as (asn2 & asn1 & asn3 & Hf & HP).
  split; [|split].
  - rewrite HP. destruct (_ || _); [by left|right; by eexists].
  - intros ev. rewrite HP. split.
    + intros Hev.
      destruct (models.Announcement update) eqn:Hann; [|done].
      cbn [negb orb] in Hev.
      destruct (Z.of_nat (length (models.ASPath update)) <? 3); [done|].
      cbn [orb] in Hev. destruct (asn2 =? 0) eqn:Hz; [done|].
      apply Z.eqb_neq in Hz. injection Hev as <-. split; [done|].
      destruct (leak_facts.findLeakPattern_spec (models.ASPath update))
        as [(i & a1 & a2 & a3 & Hfirst & Hres)|[_ Hres]];
        rewrite Hf in Hres; simplify_eq.
      by exists i, a1, a2, a3.
    + intros (Hann & i & a1 & a2 & a3 & Hfirst & Hz & ->).
      destruct (leak_facts.findLeakPattern_spec (models.ASPath update))
        as [(j & b1 & b2 & b3 & Hfirst' & Hres)|[Hnone Hres]];
        rewrite Hf in Hres; simplify_eq.
      * destruct (leak_facts.first_leak_at_unique _ _ _ _ _ _ _ _ _ Hfirst Hfirst')
          as (_ & -> & -> & ->).
        rewrite Hann. cbn [negb orb].
        destruct Hfirst' as [Hat _]. apply leak_facts.leak_at_bound in Hat.
        replace (Z.of_nat (length (models.ASPath update)) <? 3) with false
          by (symmetry; apply Z.ltb_ge; lia).
        cbn [orb].
        by replace (b2 =? 0) with false by (symmetry; by apply Z.eqb_neq).
      * destruct Hfirst as [Hat _]. by destruct (Hnone i a1 a2 a3).
  - intros a1 a2 a3. repeat split.
Qed.

(** ** More on the blackhole detector and on prefix lengths *)

Module blackhole_more.
Import models detector blackhole_facts.

Lemma GetBlackholeCommunities_elem (communities : list string) (c : string) :
  c ∈ GetBlackholeCommunities communities
  ↔ c ∈ communities ∧ KnownBlackholeCommunities !! c = Some true.
Proof.
  induction communities as [|x rest IH]; cbn [GetBlackholeCommunities].
  - split; [intros H; by apply elem_of_nil in H|].
    intros [H _]. by apply elem_of_nil in H.
  - destruct (IsBlackholeCommunity x) eqn:Hx.
    + rewrite !elem_of_cons, IH. split.
      * intros [->|[Hin Hk]]; [|split; [right|]; assumption].
        split; [left; reflexivity|by apply table_true].
      * intros [[->|Hin] Hk]; [left; reflexivity|right; split; assumption].
    + rewrite IH, elem_of_cons. split;
        [intros [Hin Hk]; split; [right|]; assumption|].
      intros [[->|Hin] Hk]; [|split; assumption].
      apply table_true in Hk. congruence.
Qed.

Lemma GetBlackholeCommunities_sublist (communities : list string) :
  sublist (GetBlackholeCommunities communities) communities.
Proof.
  induction communities as [|x rest IH]; cbn [GetBlackholeCommunities];
    [constructor|].
  destruct (IsBlackholeCommunity x); by constructor.
Qed.

Lemma GetBlackholeCommunities_nil (communities : list string) :
  GetBlackholeCommunities communities = []
  ↔ HasBlackholeCommunity communities = false.
Proof.
  induction communities as [|x rest IH];
    cbn [GetBlackholeCommunities HasBlackholeCommunity]; [done|].
  by destruct (IsBlackholeCommunity x).
Qed.

End blackhole_more.

(** X16.  [GetBlackholeCommunities] is the update's communities cut down
    to the known table: it keeps exactly the strings that are keys of the
    table, in their order and with their repetitions, and it is empty
    exactly when [HasBlackholeCommunity] says no. *)
Theorem blackhole_communities_are_the_known_ones (communities : list string) :
  (∀ c, c ∈ detector.GetBlackholeCommunities communities
        ↔ c ∈ communities ∧ detector.KnownBlackholeCommunities !! c = Some true)
  ∧ sublist (detector.GetBlackholeCommunities communities) communities
  ∧ (detector.GetBlackholeCommunities communities = []
     ↔ detector.HasBlackholeCommunity communities = false)
  ∧ (∀ pre c post,
       communities = pre ++ c :: post →
       detector.GetBlackholeCommunities communities
       = detector.GetBlackholeCommunities pre
         ++ (if detector.IsBlackholeCommunity c then [c] else [])
         ++ detector.GetBlackholeCommunities post).
Proof.
  split; [apply blackhole_more.GetBlackholeCommunities_elem|].
  split; [apply blackhole_more.GetBlackholeCommunities_sublist|].
  split; [apply blackhole_more.GetBlackholeCommunities_nil|].
  intros pre c post ->. induction pre as [|x pre IH].
  - cbn [app detector.GetBlackholeCommunities].
    by destruct (detector.IsBlackholeCommunity c).
  - cbn [app detector.GetBlackholeCommunities]. rewrite IH.
    by destruct (detector.IsBlackholeCommunity x).
Qed.

(** X17.  The blackhole event.  Every event of the blackhole detector has
    type blackhole and category defense, names the update's origin as
    affected ASN, and lists under blackhole_communities the known
    communities of the update (at least one).  With [p] the prefix length
    read by [getPrefixLength]: is_host_route says whether [p] is 32 or
    128; a host route has severity medium and confidence 0.95; any other
    [p >= 24] has medium and 0.85; [16 <= p < 24] has medium and 0.6;
    [p < 16] has high and 0.6. *)
Theorem blackhole_event_table
    (now : models.Time) (update : models.BGPUpdate) (ev : models.BGPEvent) :
  detector.BlackholeDetector.Process now update = Some [ev] →
  ∃ p : Z,
    detector.getPrefixLength (models.Prefix update) = Some p
    ∧ models.EventType ev = "blackhole"
    ∧ models.EventCategory ev = "defense"
    ∧ models.AffectedASN ev = models.OriginASN update
    ∧ models.AffectedPrefix ev = models.Prefix update
    ∧ models.DetectedAt ev = now ∧ models.IsActive ev = true
    ∧ models.CountryCode ev = ""
    ∧ models.Details ev !! "signal" = Some (models.VString "blackhole_community")
    ∧ models.Details ev !! "communities"
      = Some (models.VStrings (models.Communities update))
    ∧ models.Details ev !! "blackhole_communities"
      = Some (models.VStrings
                (detector.GetBlackholeCommunities (models.Communities update)))
    ∧ detector.GetBlackholeCommunities (models.Communities update) ≠ []
    ∧ models.Details ev !! "as_path"
      = Some (models.VUint32s (models.ASPath update))
    ∧ models.Details ev !! "is_host_route"
      = Some (models.VBool (bool_decide (p = 32 ∨ p = 128)))
    ∧ ∃ confidence : Q,
        models.Details ev !! "confidence" = Some (models.VFloat64 confidence)
        ∧ (p = 32 ∨ p = 128 →
           models.Severity ev = "medium" ∧ confidence = 0.95%Q)
        ∧ (p ≠ 32 → p ≠ 128 → 24 <= p →
           models.Severity ev = "medium" ∧ confidence = 0.85%Q)
        ∧ (16 <= p < 24 →
           models.Severity ev = "medium" ∧ confidence = 0.6%Q)
        ∧ (p < 16 → models.Severity ev = "high" ∧ confidence = 0.6%Q).
Proof.
  intros HP.
  destruct (blackhole_facts.Process_cases now update) as (p & Hp & Hcases).
  rewrite Hcases in HP.
  destruct (models.Announcement update && _) eqn:Hcond; [|done].
  apply andb_true_iff in Hcond as [_ Hhas].
  cbv zeta in HP. injection HP as <-.
  exists p. split; [exact Hp|].
  do 10 (split; [reflexivity|]).
  split.
  { intros Hnil. apply blackhole_more.GetBlackholeCommunities_nil in Hnil.
    congruence. }
  split; [reflexivity|]. split.
  { transitivity (Some (models.VBool ((p =? 32) || (p =? 128))));
      [reflexivity|]. do 2 f_equal.
    destruct (p =? 32) eqn:H32, (p =? 128) eqn:H128;
      [apply Z.eqb_eq in H32|apply Z.eqb_eq in H32|apply Z.eqb_eq in H128
      |apply Z.eqb_neq in H32, H128];
      symmetry; first [apply bool_decide_eq_true; lia
                      |apply bool_decide_eq_false; lia]. }
  eexists. split; [reflexivity|].
  unfold detector.BlackholeDetector.severity_of,
    detector.BlackholeDetector.confidence_of.
  cbn [models.Severity models.event].
  repeat split; intros;
    repeat match goal with
           | |- context [?a =? ?b] =>
               let H := fresh in destruct (Z.eqb_spec a b) as [H|H]; try lia
           | |- context [?a <=? ?b] =>
               let H := fresh in destruct (Z.leb_spec a b) as [H|H]; try lia
           | |- context [?a <? ?b] =>
               let H := fresh in destruct (Z.ltb_spec a b) as [H|H]; try lia
           end; cbn [orb]; try reflexivity; lia.
Qed.

Lemma blackhole_event_table_witness :
  let update :=
    {| models.Timestamp := 0; models.PeerASN := 6939;
       models.Prefix := "192.0.2.1/32"; models.ASPath := [6939; 3356; 13335];
       models.OriginASN := 13335; models.Communities := ["65535:666"];
       models.Announcement := true; models.Collector := "rrc00" |} in
  ∃ ev,
    detector.BlackholeDetector.Process 0 update = Some [ev]
    ∧ models.Severity ev = "medium"
    ∧ models.Details ev !! "confidence" = Some (models.VFloat64 0.95%Q)
    ∧ models.Details ev !! "is_host_route" = Some (models.VBool true).
Proof.
  intros update.
  destruct (detector.BlackholeDetector.Process 0 update) as [out|] eqn:HP;
    [|by vm_compute in HP].
  destruct out as [|ev [|ev' out]]; [by vm_compute in HP| |by vm_compute in HP].
  exists ev. split; [done|].
  destruct (blackhole_event_table 0 update ev HP)
    as (p & Hp & _ & _ & _ & _ & _ & _ & _ & _ & _ & _ & _ & _ & Hhost
        & confidence & Hconf & Htab & _).
  assert (p = 32) as -> by (vm_compute in Hp; congruence).
  destruct (Htab ltac:(by left)) as [Hsev ->].
  split; [exact Hsev|]. split; [exact Hconf|]. exact Hhost.
Defined.

(** X18.  What [getPrefixLength] computes.  It never indexes outside the
    string and its result is a 64-bit integer.  On a prefix written
    [<address>/<n>], with [n] in decimal, it returns [n]; on a string
    without a slash it returns 32; on a string that ends in a slash it
    returns 0; and only the text after the last slash counts. *)
Theorem getPrefixLength_reads_length :
  (∀ prefix,
     ∃ p, detector.getPrefixLength prefix = Some p ∧ - 2 ^ 63 <= p < 2 ^ 63)
  ∧ (∀ addr n, 0 <= n < 2 ^ 63 →
       detector.getPrefixLength (addr +:+ "/" +:+ strconv.FormatUint n) = Some n)
  ∧ (∀ prefix, prefix_facts.no_slash prefix →
       detector.getPrefixLength prefix = Some 32)
  ∧ (∀ addr, detector.getPrefixLength (addr +:+ "/") = Some 0)
  ∧ (∀ addr other n, 0 <= n < 2 ^ 63 →
       detector.getPrefixLength (addr +:+ "/" +:+ strconv.FormatUint n)
       = detector.getPrefixLength (other +:+ "/" +:+ strconv.FormatUint n)).
Proof.
  split; [apply prefix_facts.getPrefixLength_total|].
  split; [apply prefix_facts.getPrefixLength_cidr|].
  split; [apply prefix_facts.getPrefixLength_no_slash|].
  split.
  - intros addr. unfold detector.getPrefixLength.
    rewrite string_length_app. cbn [String.length].
    rewrite Nat.add_1_r. cbn [detector.slashLoop].
    replace (String.length addr) with (String.length addr + 0)%nat at 1 by lia.
    rewrite string_index_app_r. cbn [string_index mbind option_bind].
    change (byte_of "/" =? 47) with true. cbv iota.
    rewrite string_length_app. cbn [String.length].
    by replace (String.length addr + 1 - S (String.length addr))%nat with O by lia.
  - intros addr other n Hn.
    by rewrite !prefix_facts.getPrefixLength_cidr.
Qed.

(** ** The country resolvers *)

Module resolver_facts.
Import database.

Lemma first_country_none (m : gmap Z string) (asPath : list Z) :
  (∀ asn, asn ∈ asPath → m !! asn = None) → first_country m asPath = "".
Proof.
  induction asPath as [|a rest IH]; intros Hall; cbn [first_country]; [done|].
  rewrite (Hall a) by left. apply IH. intros asn Hin. apply Hall. by right.
Qed.

Lemma first_country_first (m : gmap Z string) (pre post : list Z) (asn : Z)
    (country : string) :
  (∀ x, x ∈ pre → m !! x = None) → m !! asn = Some country →
  first_country m (pre ++ asn :: post) = country.
Proof.
  intros Hpre Hasn. induction pre as [|a pre IH]; cbn [app first_country].
  - by rewrite Hasn.
  - rewrite (Hpre a) by left. apply IH. intros x Hin. apply Hpre. by right.
Qed.

Lemma first_country_singleton (m : gmap Z string) (asn : Z) :
  first_country m [asn] = country_at m asn.
Proof.
  cbn [first_country]. unfold country_at. by destruct (m !! asn).
Qed.











End resolver_facts.

(** The resolver instances are needed from here on. *)
Import database.

(** X19.  [ResolveFromPath] returns the country of the first ASN of the
    path that the mapping knows, and the empty string when it knows none;
    [Resolve] is the same lookup on one ASN.  This holds for the file
    resolver and for the database resolver; the null resolver always
    answers the empty string. *)
Theorem resolve_from_path_first_known
    (mapping : gmap Z string) (asPath : list Z) :
  let file : database.FileResolver := {| database.mapping := mapping |} in
  let table : database.DatabaseResolver :=
    {| database.db_mapping := mapping |} in
  ((∀ asn, asn ∈ asPath → mapping !! asn = None) →
   database.ResolveFromPath file asPath = ""
   ∧ database.ResolveFromPath table asPath = "")
  ∧ (∀ pre asn post country,
       asPath = pre ++ asn :: post →
       (∀ x, x ∈ pre → mapping !! x = None) →
       mapping !! asn = Some country →
       database.ResolveFromPath file asPath = country
       ∧ database.ResolveFromPath table asPath = country)
  ∧ (∀ asn,
       database.Resolve file asn = default "" (mapping !! asn)
       ∧ database.Resolve table asn = default "" (mapping !! asn)
       ∧ database.ResolveFromPath file [asn] = database.Resolve file asn
       ∧ database.ResolveFromPath table [asn] = database.Resolve table asn)
  ∧ database.ResolveFromPath database.null_resolver asPath = ""
  ∧ (∀ asn, database.Resolve database.null_resolver asn = "").
Proof.
  intros file table. split; [|split; [|split; [|split]]].
  - intros Hnone. split; by apply resolver_facts.first_country_none.
  - intros pre asn post country -> Hpre Hasn.
    split; by apply resolver_facts.first_country_first.
  - intros asn. split; [done|]. split; [done|].
    split; apply resolver_facts.first_country_singleton.
  - done.
  - done.
Qed.




(** ** The event sink *)

Module sink_facts.
Import models main.

Lemma with_country_same (e : BGPEvent) : with_country e (CountryCode e) = e.
Proof. by destruct e. Qed.

Lemma eqb_empty (s : string) : String.eqb s "" = true ↔ s = "".
Proof. apply String.eqb_eq. Qed.

Lemma resolveCountry_nonempty {R} `{CountryResolver R} (resolver : R)
    (event : BGPEvent) :
  resolveCountry resolver event ≠ "".
Proof.
  unfold resolveCountry.
  match goal with
  | |- (if String.eqb ?cc "" then _ else _) ≠ _ =>
      destruct (String.eqb cc "") eqn:Hcc; [done|]
  end.
  intros Heq. apply String.eqb_neq in Hcc. done.
Qed.

Lemma resolveCountry_set {R} `{CountryResolver R} (resolver : R)
    (event : BGPEvent) :
  CountryCode event ≠ "" → resolveCountry resolver event = CountryCode event.
Proof.
  intros Hset. apply String.eqb_neq in Hset.
  unfold resolveCountry. by rewrite !Hset.
Qed.

(** An event as the detectors build it: no country yet, and the path
    stored as a slice of 32-bit numbers. *)
Definition detector_event (ev : BGPEvent) : Prop :=
  (∃ now update, detector.BlackholeDetector.Process now update = Some [ev])
  ∨ (∃ d d' now update,
        detector.HijackDetector.Process d now update = Some (d', [ev]))
  ∨ (∃ now update, detector.LeakDetector.Process now update = Some [ev]).

Lemma detector_event_shape (ev : BGPEvent) :
  detector_event ev →
  CountryCode ev = "" ∧ IsActive ev = true
  ∧ ∃ asPath, Details ev !! "as_path" = Some (VUint32s asPath).
Proof.
  intros [(now & u & HP)|[(d & d' & now & u & HP)|(now & u & HP)]].
  - destruct (blackhole_facts.Process_cases now u) as (p & _ & Hc).
    rewrite Hc in HP. destruct (_ && _); [|done].
    cbv zeta in HP. injection HP as <-.
    split; [done|]. split; [done|]. by eexists.
  - apply hijack_facts.Process_event_inv in HP
      as (_ & _ & _ & _ & _ & _ & _ & sev & _ & ->).
    split; [done|]. split; [done|]. by eexists.
  - destruct (leak_facts.leak_Process_cases now u) as (a2 & a1 & a3 & _ & Hc).
    rewrite Hc in HP. destruct (_ || _); [done|]. injection HP as <-.
    split; [done|]. split; [done|]. by eexists.
Qed.

End sink_facts.

(** X22.  The sink always sets a country code and never replaces one.
    Whatever the resolver, the event leaving the sink has a non-empty
    country code; an event that comes with a country code leaves
    unchanged; nothing but the country code is ever touched; running the
    sink twice is the same as running it once; and with the null resolver
    every event without a country code gets ["XX"]. *)
Theorem sink_sets_country_once
    (R : Type) (resolver_of_R : CountryResolver R)
    (resolver : R) (event : models.BGPEvent) :
  let out := main.sink resolver event in
  models.CountryCode out ≠ ""
  ∧ (models.CountryCode event ≠ "" → out = event)
  ∧ models.with_country out (models.CountryCode event) = event
  ∧ main.sink resolver out = out
  ∧ (models.CountryCode event = "" →
     models.CountryCode (main.sink null_resolver event) = "XX").
Proof.
  intros out. unfold out, main.sink.
  split; [apply sink_facts.resolveCountry_nonempty|].
  split.
  { intros Hset. rewrite sink_facts.resolveCountry_set by done.
    apply sink_facts.with_country_same. }
  split; [by destruct event|].
  split.
  { rewrite (sink_facts.resolveCountry_set resolver (models.with_country _ _)).
    - by destruct event.
    - apply sink_facts.resolveCountry_nonempty. }
  intros Hempty. cbn [models.CountryCode models.with_country].
  unfold main.resolveCountry. rewrite Hempty.
  cbn [String.eqb Resolve ResolveFromPath NullResolver_resolver].
  destruct (0 <? models.AffectedASN event);
    cbn [String.eqb]; by destruct (models.Details event !! "as_path") as [[]|].
Qed.

(** X23.  The country of a detector's event comes from its affected ASN
    alone.  The three detectors store the AS path of an event as a slice
    of 32-bit numbers, and the sink looks for a path only in the form of a
    slice of arbitrary values; so for an event of any of the detectors the
    sink never asks [ResolveFromPath]: the country code is what [Resolve]
    says for a positive affected ASN and ["XX"] otherwise, also when the
    resolver knows an ASN on the path. *)
Theorem sink_on_detector_events
    (R : Type) (resolver_of_R : CountryResolver R)
    (resolver : R) (event : models.BGPEvent) :
  sink_facts.detector_event event →
  (∃ asPath,
     models.Details event !! "as_path" = Some (models.VUint32s asPath))
  ∧ models.CountryCode (main.sink resolver event)
    = if (0 <? models.AffectedASN event)
         && negb (String.eqb (Resolve resolver (models.AffectedASN event)) "")
      then Resolve resolver (models.AffectedASN event)
      else "XX".
Proof.
  intros Hev.
  apply sink_facts.detector_event_shape in Hev as (Hcc & _ & asPath & Hpath).
  split; [by exists asPath|].
  cbn [models.CountryCode models.with_country main.sink].
  unfold main.resolveCountry. rewrite Hcc, Hpath. cbn [String.eqb].
  destruct (0 <? models.AffectedASN event); cbn [andb String.eqb]; [|done].
  destruct (String.eqb (Resolve resolver (models.AffectedASN event)) "") eqn:He;
    cbn [negb]; by rewrite He.
Qed.

Lemma sink_on_detector_events_witness :
  let d := detector.HijackDetector.setKnownOrigin
             (detector.HijackDetector.NewHijackDetector None) 0 "1.2.3.0/24" 64500 in
  let update :=
    {| models.Timestamp := 0; models.PeerASN := 6939;
       models.Prefix := "1.2.3.0/24"; models.ASPath := [6939; 64501];
       models.OriginASN := 64501; models.Communities := [];
       models.Announcement := true; models.Collector := "rrc00" |} in
  let resolver := {| mapping := {[ 6939 := "US" ]} |} in
  ∃ d' ev,
    detector.HijackDetector.Process d 1 update = Some (d', [ev])
    ∧ ResolveFromPath resolver [6939; 64501] = "US"
    ∧ models.CountryCode (main.sink resolver ev) = "XX".
Proof.
  intros d update resolver.
  destruct (detector.HijackDetector.Process d 1 update) as [[d' out]|] eqn:HP;
    [|by vm_compute in HP].
  destruct out as [|ev [|ev' out]]; [by vm_compute in HP| |by vm_compute in HP].
  exists d', ev. split; [done|]. split; [reflexivity|].
  destruct (sink_on_detector_events FileResolver FileResolver_resolver resolver ev)
    as [_ Hcc].
  { right. left. by exists d, d', 1, update. }
  rewrite Hcc.
  assert (models.AffectedASN ev = 64500) as ->.
  { apply hijack_facts.Process_event_inv in HP
      as (_ & _ & _ & _ & _ & _ & _ & sev & _ & ->).
    by vm_compute. }
  reflexivity.
Defined.

(** ** The parser *)

Module parser_facts.
Import strconv strconv_facts rislive.

Lemma parseLoop_nonneg (maxVal : Z) (s : string) :
  ∀ n v, parseLoop maxVal n s = (v, None) → 0 <= n → 0 <= v.
Proof.
  induction s as [|c s IH]; intros n v H Hn; cbn [parseLoop] in H.
  - by injection H as <-.
  - cbv zeta in H. destruct (_ && _); [|done].
    destruct (_ <=? n); [done|]. destruct (_ || _); [done|].
    apply IH in H; [done|]. apply Z.mod_pos_bound. lia.
Qed.

Lemma ParseUint_nonneg (s : string) (bitSize v : Z) :
  ParseUint s bitSize = (v, None) → 0 <= v.
Proof.
  unfold ParseUint. destruct s; [done|]. intros H.
  by apply parseLoop_nonneg in H.
Qed.

Lemma unmarshal_uint32_range (x : json.value) (n : Z) :
  json.unmarshal_uint32 x = Some n → 0 <= n < 2 ^ 32.
Proof.
  unfold json.unmarshal_uint32. destruct x; try done.
  - intros [= <-]. lia.
  - destruct (ParseUint lit 64) as [v [e|]] eqn:Hp; [done|].
    apply ParseUint_nonneg in Hp.
    destruct (v <=? 2 ^ 32 - 1) eqn:Hle; [|done].
    apply Z.leb_le in Hle. intros [= <-]. lia.
Qed.

Lemma unmarshal_uint32_number (v : Z) :
  0 <= v < 2 ^ 64 →
  json.unmarshal_uint32 (json.Number (FormatUint v))
  = if v <=? 2 ^ 32 - 1 then Some v else None.
Proof.
  intros Hv. unfold json.unmarshal_uint32.
  by rewrite ParseUint_FormatUint by lia.
Qed.

(** Reading back the digits of a number that does not fit. *)
Lemma parseLoop_formatBits_any (maxVal : Z) (fuel : nat) :
  0 <= maxVal < 2 ^ 64 →
  ∀ (u : Z) (acc : string),
    0 <= u < 10 ^ Z.of_nat fuel → u < 10 * 2 ^ 64 →
    parseLoop maxVal 0 (formatBits fuel u acc)
    = if u <=? maxVal then parseLoop maxVal u acc else (maxVal, Some ErrRange).
Proof.
  intros Hmax. induction fuel as [|k IH]; intros u acc Hu Hbig.
  - simpl in Hu. replace u with 0 by lia. cbn [formatBits].
    by replace (0 <=? maxVal) with true by (symmetry; apply Z.leb_le; lia).
  - cbn [formatBits]. destruct (u <? 10) eqn:H10.
    + apply Z.ltb_lt in H10. cbn [parseLoop]. cbv zeta.
      rewrite byte_of_char_of by lia.
      replace ((48 <=? 48 + u) && (48 + u <=? 57)) with true
        by (symmetry; apply andb_true_iff; split; apply Z.leb_le; lia).
      replace (maxUint64 / 10 + 1 <=? 0) with false by done.
      replace (48 + u - 48) with u by lia.
      rewrite Z.mul_0_l, Z.add_0_l, (Z.mod_small u) by lia.
      replace (u <? 0) with false by (symmetry; apply Z.ltb_ge; lia).
      cbn [orb]. rewrite Z.ltb_antisym. by destruct (u <=? maxVal).
    + apply Z.ltb_ge in H10.
      pose proof (Z.div_mod u 10 ltac:(lia)) as Hdm.
      pose proof (Z.mod_pos_bound u 10 ltac:(lia)) as Hm.
      assert (Hk : 0 <= u / 10 < 10 ^ Z.of_nat k).
      { split; [apply Z.div_pos; lia|].
        apply Z.div_lt_upper_bound; [lia|].
        rewrite Nat2Z.inj_succ, Z.pow_succ_r in Hu by lia. lia. }
      rewrite IH by lia.
      change (2 ^ 64) with 18446744073709551616 in *.
      destruct (u / 10 <=? maxVal) eqn:Hq.
      * apply Z.leb_le in Hq. cbn [parseLoop]. cbv zeta.
        rewrite byte_of_char_of by lia.
        replace ((48 <=? 48 + u mod 10) && (48 + u mod 10 <=? 57)) with true
          by (symmetry; apply andb_true_iff; split; apply Z.leb_le; lia).
        replace (48 + u mod 10 - 48) with (u mod 10) by lia.
        unfold maxUint64.
        change (2 ^ 64 - 1) with 18446744073709551615.
        change (18446744073709551615 / 10 + 1) with 1844674407370955162.
        change (2 ^ 64) with 18446744073709551616.
        destruct (1844674407370955162 <=? u / 10) eqn:Hcut.
        { apply Z.leb_le in Hcut.
          by replace (u <=? maxVal) with false by (symmetry; apply Z.leb_gt; lia). }
        apply Z.leb_gt in Hcut.
        replace (u / 10 * 10 + u mod 10) with u by lia.
        destruct (decide (u < 18446744073709551616)) as [Hfit|Hwrap].
        -- rewrite (Z.mod_small u) by lia.
           replace (u <? u / 10 * 10) with false by (symmetry; apply Z.ltb_ge; lia).
           cbn [orb]. rewrite Z.ltb_antisym. by destruct (u <=? maxVal).
        -- replace (u mod 18446744073709551616) with (u - 18446744073709551616).
           2:{ apply Z.mod_unique with 1; lia. }
           replace (u - 18446744073709551616 <? u / 10 * 10) with true
             by (symmetry; apply Z.ltb_lt; lia).
           cbn [orb].
           by replace (u <=? maxVal) with false by (symmetry; apply Z.leb_gt; lia).
      * apply Z.leb_gt in Hq.
        by replace (u <=? maxVal) with false by (symmetry; apply Z.leb_gt; lia).
Qed.

Lemma ParseUint_FormatUint_overflow (u bitSize : Z) :
  0 <= bitSize <= 64 → 2 ^ bitSize <= u < 2 ^ 64 →
  ParseUint (FormatUint u) bitSize = (2 ^ bitSize - 1, Some ErrRange).
Proof.
  intros Hb Hu. unfold ParseUint, FormatUint.
  assert (Hpow : 0 < 2 ^ bitSize <= 2 ^ 64)
    by (split; [apply Z.pow_pos_nonneg; lia|apply Z.pow_le_mono_r; lia]).
  pose proof (formatBits_nonempty 20 u "" ltac:(left; lia)) as Hne.
  destruct (formatBits 20 u "") eqn:Hfmt; [done|]. rewrite <- Hfmt.
  rewrite parseLoop_formatBits_any; [|lia| |].
  - by replace (u <=? 2 ^ bitSize - 1) with false by (symmetry; apply Z.leb_gt; lia).
  - change (2 ^ 64) with 18446744073709551616 in *.
    change (10 ^ Z.of_nat 20) with 100000000000000000000. lia.
  - lia.
Qed.

Lemma parseASN_range (data : json.RawMessage) : 0 <= parseASN data < 2 ^ 32.
Proof.
  unfold parseASN. destruct data as [x|]; [|lia].
  destruct (json.unmarshal_uint32 x) as [n|] eqn:Hn;
    [by apply unmarshal_uint32_range in Hn|].
  destruct (json.unmarshal_string x); [|lia].
  apply Z.mod_pos_bound. lia.
Qed.

(** What one element of a path array adds to the path. *)
Definition path_part (elem : json.value) : list Z :=
  match json.unmarshal_uint32 elem with
  | Some num => [num]
  | None => default [] (json.unmarshal_slice json.unmarshal_uint32 elem)
  end.

Lemma flattenPath_parts (elems : list json.value) :
  ∀ result, flattenPath elems result = result ++ concat (path_part <$> elems).
Proof.
  induction elems as [|e elems IH]; intros result; cbn [flattenPath fmap list_fmap concat].
  - by rewrite app_nil_r.
  - unfold path_part at 1.
    destruct (json.unmarshal_uint32 e) as [n|].
    + rewrite IH. by rewrite <- app_assoc.
    + destruct (json.unmarshal_slice json.unmarshal_uint32 e) as [ns|];
        rewrite IH; cbn [default]; [by rewrite <- app_assoc|done].
Qed.

Lemma mapM_uint32_parts (elems : list json.value) (l : list Z) :
  mapM json.unmarshal_uint32 elems = Some l →
  l = concat (path_part <$> elems).
Proof.
  revert l. induction elems as [|e elems IH]; intros l H.
  - by injection H as <-.
  - cbn [mapM] in H.
    destruct (json.unmarshal_uint32 e) as [n|] eqn:Hn; [|done].
    cbn [mbind option_bind] in H.
    destruct (mapM json.unmarshal_uint32 elems) as [l'|]; [|done].
    cbn [fmap option_fmap option_map mret option_ret mbind option_bind] in H.
    injection H as <-.
    cbn [fmap list_fmap concat]. unfold path_part at 1. rewrite Hn.
    cbn [app]. f_equal. by apply IH.
Qed.

Lemma path_part_range (elem : json.value) :
  Forall (λ asn, 0 <= asn < 2 ^ 32) (path_part elem).
Proof.
  unfold path_part.
  destruct (json.unmarshal_uint32 elem) as [n|] eqn:Hn.
  - constructor; [by apply unmarshal_uint32_range in Hn|constructor].
  - unfold json.unmarshal_slice. destruct elem; try constructor.
    destruct (mapM json.unmarshal_uint32 elems) as [ns|] eqn:Hm; [|constructor].
    cbn [default]. apply mapM_Some in Hm.
    apply Forall_forall. intros asn Hin.
    apply (Forall2_Forall_r _ (λ asn, 0 <= asn < 2 ^ 32)) in Hm.
    + rewrite Forall_forall in Hm. by apply Hm.
    + apply Forall_forall. intros x _ y Hy. by apply unmarshal_uint32_range in Hy.
Qed.

Lemma parseASPath_array (elems : list json.value) :
  parseASPath (Some (json.Array elems)) = Some (concat (path_part <$> elems)).
Proof.
  unfold parseASPath. cbn [json.unmarshal_slice].
  destruct (mapM json.unmarshal_uint32 elems) as [l|] eqn:Hm.
  - f_equal. by apply mapM_uint32_parts.
  - rewrite mapM_Some_2 with (k := elems).
    + cbn [mbind option_bind]. by rewrite flattenPath_parts.
    + by apply Forall2_same_length_lookup_2; [done|intros; simplify_eq].
Qed.

Lemma parseASPath_range (data : json.RawMessage) (path : list Z) :
  parseASPath data = Some path → Forall (λ asn, 0 <= asn < 2 ^ 32) path.
Proof.
  destruct data as [v|]; [|by intros [= <-]].
  destruct v; try done.
  - intros [= <-]. constructor.
  - rewrite parseASPath_array. intros [= <-].
    apply Forall_concat, Forall_fmap, Forall_forall. intros e _.
    apply path_part_range.
Qed.

Lemma parseASPath_error (v : json.value) :
  parseASPath (Some v) = None ↔ v ≠ json.Null ∧ ∀ elems, v ≠ json.Array elems.
Proof.
  split.
  - intros H. split; [by intros ->|]. intros elems ->.
    by rewrite parseASPath_array in H.
  - intros [Hnull Harr]. destruct v; try done. by destruct (Harr elems).
Qed.

(** What one element of the community array adds: a pair of numbers is
    rendered, a string is taken as it is, [null] gives the empty string. *)
Definition community_of (elem : json.value) : option string :=
  match elem with
  | json.Null => Some ""
  | json.Str s => Some s
  | json.Array [x; y] =>
      match json.unmarshal_uint32 x, json.unmarshal_uint32 y with
      | Some asn, Some val => Some (FormatUint asn +:+ ":" +:+ FormatUint val)
      | _, _ => None
      end
  | _ => None
  end.

Lemma communitiesLoop_omap (data : list json.value) :
  ∀ result, communitiesLoop data result = result ++ omap community_of data.
Proof.
  induction data as [|e data IH]; intros result;
    cbn [communitiesLoop omap list_omap].
  - by rewrite app_nil_r.
  - destruct e as [|b|lit|s|elems|members];
      cbn [json.unmarshal_slice json.unmarshal_string community_of].
    1-4, 6: rewrite IH; try done; by rewrite <- app_assoc.
    destruct elems as [|x [|y [|z elems]]]; cbn [mapM].
    + cbn [mret option_ret]. by rewrite IH.
    + destruct (json.unmarshal_uint32 x);
        cbn [mbind option_bind mret option_ret]; by rewrite IH.
    + destruct (json.unmarshal_uint32 x), (json.unmarshal_uint32 y);
        cbn [mbind option_bind mret option_ret]; rewrite IH; try done.
      by rewrite <- app_assoc.
    + destruct (json.unmarshal_uint32 x); cbn [mbind option_bind];
        [|by rewrite IH].
      destruct (json.unmarshal_uint32 y); cbn [mbind option_bind];
        [|by rewrite IH].
      destruct (json.unmarshal_uint32 z); cbn [mbind option_bind];
        [|by rewrite IH].
      destruct (mapM json.unmarshal_uint32 elems);
        cbn [mbind option_bind mret option_ret]; by rewrite IH.
Qed.

Lemma digits_colon_inj (s1 : string) :
  ∀ s2 t1 t2,
    all_digits s1 = true → all_digits s2 = true →
    s1 +:+ ":" +:+ t1 = s2 +:+ ":" +:+ t2 → s1 = s2 ∧ t1 = t2.
Proof.
  induction s1 as [|c1 s1 IH]; intros [|c2 s2] t1 t2 H1 H2 H.
  - change ("" +:+ ":" +:+ t1) with (String ":" t1) in H.
    change ("" +:+ ":" +:+ t2) with (String ":" t2) in H.
    by injection H as ->.
  - change ("" +:+ ":" +:+ t1) with (String ":" t1) in H.
    change (String c2 s2 +:+ ":" +:+ t2) with (String c2 (s2 +:+ ":" +:+ t2)) in H.
    injection H as <- _. by vm_compute in H2.
  - change ("" +:+ ":" +:+ t2) with (String ":" t2) in H.
    change (String c1 s1 +:+ ":" +:+ t1) with (String c1 (s1 +:+ ":" +:+ t1)) in H.
    injection H as -> _. by vm_compute in H1.
  - change (String c1 s1 +:+ ":" +:+ t1) with (String c1 (s1 +:+ ":" +:+ t1)) in H.
    change (String c2 s2 +:+ ":" +:+ t2) with (String c2 (s2 +:+ ":" +:+ t2)) in H.
    injection H as -> H. cbn [all_digits] in H1, H2.
    apply andb_true_iff in H1 as [_ H1]. apply andb_true_iff in H2 as [_ H2].
    destruct (IH s2 t1 t2 H1 H2 H) as [-> ->]. done.
Qed.

Lemma FormatUint_digits (u : Z) : 0 <= u → all_digits (FormatUint u) = true.
Proof. intros Hu. by apply formatBits_digits. Qed.

(** Time stamps in whole seconds, to run the parser on examples. *)
Definition whole_seconds : json.Float64Ops :=
  {| json.float64 := Z;
     json.float64_zero := 0;
     json.ParseFloat lit :=
       match ParseUint lit 64 with
       | (n, None) => Some n
       | (_, Some _) => None
       end;
     json.unixTime ts := ts * time.Second |}.

End parser_facts.

(** X24.  A peer ASN written as a number and one written as a string of
    digits are read alike up to 4294967295 and differently above: a
    number that does not fit 32 bits gives 0, a string of digits that does
    not fit gives 4294967295. *)
Theorem parseASN_number_or_string (v : Z) :
  0 <= v < 2 ^ 64 →
  rislive.parseASN (Some (json.Number (strconv.FormatUint v)))
  = (if v <=? 4294967295 then v else 0)
  ∧ rislive.parseASN (Some (json.Str (strconv.FormatUint v)))
    = (if v <=? 4294967295 then v else 4294967295).
Proof.
  intros Hv. unfold rislive.parseASN. split.
  - rewrite parser_facts.unmarshal_uint32_number by done.
    change (2 ^ 32 - 1) with 4294967295.
    by destruct (v <=? 4294967295).
  - cbn [json.unmarshal_uint32 json.unmarshal_string].
    destruct (v <=? 4294967295) eqn:Hle.
    + apply Z.leb_le in Hle.
      rewrite strconv_facts.ParseUint_FormatUint by (change (2 ^ 32) with 4294967296; lia).
      cbn [fst]. apply store_facts.to_uint32_small.
      change (2 ^ 32) with 4294967296. lia.
    + apply Z.leb_gt in Hle.
      rewrite parser_facts.ParseUint_FormatUint_overflow
        by (change (2 ^ 32) with 4294967296; lia).
      reflexivity.
Qed.

Lemma parseASN_number_or_string_witness :
  rislive.parseASN (Some (json.Number "4294967296")) = 0
  ∧ rislive.parseASN (Some (json.Str "4294967296")) = 4294967295.
Proof. apply (parseASN_number_or_string 4294967296). vm_compute. by split. Defined.

(** X25.  [parseASPath] flattens one level of nesting and drops what it
    cannot read.  The path of an array is the concatenation, in order, of
    what its elements give: a 32-bit number (or [null], read as 0) gives
    itself, an array of such numbers gives its numbers, and any other
    element gives nothing.  An absent path and [null] give the empty
    path; the only errors are values that are neither [null] nor an
    array; and every number of a path fits 32 bits. *)
Theorem parseASPath_flattens :
  (∀ elems,
     rislive.parseASPath (Some (json.Array elems))
     = Some (concat (parser_facts.path_part <$> elems)))
  ∧ rislive.parseASPath None = Some []
  ∧ rislive.parseASPath (Some json.Null) = Some []
  ∧ (∀ v, rislive.parseASPath (Some v) = None
          ↔ v ≠ json.Null ∧ ∀ elems, v ≠ json.Array elems)
  ∧ (∀ data path, rislive.parseASPath data = Some path →
       Forall (λ asn, 0 <= asn < 2 ^ 32) path).
Proof.
  split; [apply parser_facts.parseASPath_array|].
  split; [done|]. split; [done|].
  split; [apply parser_facts.parseASPath_error|].
  apply parser_facts.parseASPath_range.
Qed.

(** X26.  [parseCommunities] keeps the order of the array and renders
    each element on its own: a pair of 32-bit numbers as ["asn:value"]
    in decimal, a string as it is, [null] as the empty string; every
    other element (a number, an object, an array that is not a pair of
    numbers) is dropped.  Two pairs of numbers are rendered alike only
    if they are the same pair. *)
Theorem parseCommunities_renders :
  (∀ data, rislive.parseCommunities data = omap parser_facts.community_of data)
  ∧ (∀ asn val asn' val',
       0 <= asn < 2 ^ 32 → 0 <= val < 2 ^ 32 →
       0 <= asn' < 2 ^ 32 → 0 <= val' < 2 ^ 32 →
       rislive.parseCommunities
         [json.Array [json.Number (strconv.FormatUint asn);
                      json.Number (strconv.FormatUint val)]]
       = rislive.parseCommunities
           [json.Array [json.Number (strconv.FormatUint asn');
                        json.Number (strconv.FormatUint val')]] →
       asn = asn' ∧ val = val').
Proof.
  assert (Hall : ∀ data,
    rislive.parseCommunities data = omap parser_facts.community_of data).
  { intros data. unfold rislive.parseCommunities.
    by rewrite parser_facts.communitiesLoop_omap. }
  split; [done|].
  intros asn val asn' val' Ha Hv Ha' Hv'. rewrite !Hall.
  cbn [omap list_omap parser_facts.community_of].
  change (2 ^ 32) with 4294967296 in *.
  rewrite !parser_facts.unmarshal_uint32_number
    by (change (2 ^ 64) with 18446744073709551616; lia).
  change (2 ^ 32 - 1) with 4294967295.
  replace (asn <=? 4294967295) with true by (symmetry; apply Z.leb_le; lia).
  replace (val <=? 4294967295) with true by (symmetry; apply Z.leb_le; lia).
  replace (asn' <=? 4294967295) with true by (symmetry; apply Z.leb_le; lia).
  replace (val' <=? 4294967295) with true by (symmetry; apply Z.leb_le; lia).
  intros [= H].
  apply parser_facts.digits_colon_inj in H as [H1 H2];
    [|apply parser_facts.FormatUint_digits; lia..].
  split; apply strconv_facts.FormatUint_inj;
    try done; change (2 ^ 64) with 18446744073709551616; lia.
Qed.

(** X27.  What every update of [ParseMessage] satisfies, whatever the
    frame.  The collector is the one passed in; the peer ASN and every
    ASN of the path fit 32 bits; the origin is the last ASN of the path,
    and 0 for an empty path; and an update that is not an announcement
    carries neither a path nor communities, so its origin is 0. *)
Theorem ParseMessage_update_invariants
    (F : json.Float64Ops) (frame : json.value) (collector : string)
    (u : models.BGPUpdate) :
  rislive.ParseMessage frame collector = rislive.Update u →
  models.Collector u = collector
  ∧ 0 <= models.PeerASN u < 2 ^ 32
  ∧ Forall (λ asn, 0 <= asn < 2 ^ 32) (models.ASPath u)
  ∧ models.OriginASN u = List.last (models.ASPath u) 0
  ∧ 0 <= models.OriginASN u < 2 ^ 32
  ∧ (models.Announcement u = false →
     models.ASPath u = [] ∧ models.Communities u = []
     ∧ models.OriginASN u = 0).
Proof.
  unfold rislive.ParseMessage.
  destruct (rislive.unmarshal_RISMessage frame) as [msg|]; [|done].
  destruct (negb _); [done|].
  destruct (rislive.unmarshal_RISUpdateData _) as [updateData|]; [|done].
  cbv zeta.
  destruct (rislive.parseASPath _) as [asPath|] eqn:Hpath; [|done].
  apply parser_facts.parseASPath_range in Hpath.
  assert (Hlast : 0 <= List.last asPath 0 < 2 ^ 32).
  { destruct (decide (asPath = [])) as [->|Hne];
      [cbn [List.last]; change (2 ^ 32) with 4294967296; lia|].
    destruct (exists_last Hne) as (l & a & ->). rewrite last_last.
    apply Forall_app in Hpath as [_ Hpath]. by inversion Hpath. }
  destruct (rislive.firstPrefix _) as [prefix|].
  - intros [= <-]. cbn.
    split; [done|]. split; [apply parser_facts.parseASN_range|].
    split; [done|]. split; [done|]. split; [done|]. done.
  - destruct (rislive.Withdrawals updateData) as [|prefix ?]; [done|].
    intros [= <-]. cbn.
    split; [done|]. split; [apply parser_facts.parseASN_range|].
    split; [constructor|]. split; [done|]. split; [lia|]. done.
Qed.

Lemma ParseMessage_update_invariants_witness :
  let frame :=
    json.Object
      (list_to_map
         [ ("type", json.Str "ris_message");
           ("data",
            json.Object
              (list_to_map
                 [ ("timestamp", json.Number "1700000000");
                   ("peer_asn", json.Str "6939");
                   ("path",
                    json.Array
                      [json.Number "6939";
                       json.Array [json.Number "174"; json.Number "64500"]]);
                   ("community",
                    json.Array
                      [json.Array [json.Number "65535"; json.Number "666"]]);
                   ("announcements",
                    json.Array
                      [json.Object
                         (list_to_map
                            [("prefixes", json.Array [json.Str "192.0.2.1/32"])])])
                 ])) ]) in
  ∃ u,
    @rislive.ParseMessage parser_facts.whole_seconds frame "rrc00" = rislive.Update u
    ∧ models.ASPath u = [6939; 174; 64500]
    ∧ models.OriginASN u = List.last (models.ASPath u) 0.
Proof.
  intros frame.
  destruct (@rislive.ParseMessage parser_facts.whole_seconds frame "rrc00")
    as [what| |u] eqn:HP; [by vm_compute in HP|by vm_compute in HP|].
  exists u. split; [done|].
  destruct (ParseMessage_update_invariants parser_facts.whole_seconds
              frame "rrc00" u HP) as (_ & _ & _ & Hlast & _).
  split; [|done].
  vm_compute in HP. by injection HP as <-.
Defined.

(** ** The reconnect loop of the RIS Live client (client.go) *)

Module client.

Definition initialReconnectDelay : Z := 5 * time.Second.
Definition maxReconnectDelay : Z := 5 * time.Minute.
Definition reconnectBackoff : Z := 2.

(** [float64(d)] for a duration [d]: the conversion is exact for
    integers below 2^53 in absolute value, and so is the product with
    2.0 then; [None] stands for a duration where it could round. *)
Definition float64_exact (d : Z) : option Z :=
  if Z.abs d <? 2 ^ 53 then Some d else None.

(** The timer branch of the [select]:
    [reconnectDelay = time.Duration(float64(reconnectDelay) * reconnectBackoff)],
    capped at [maxReconnectDelay]. *)
Definition nextDelay (reconnectDelay : Z) : option Z :=
  f ← float64_exact reconnectDelay;
  let reconnectDelay := f * reconnectBackoff in
  Some (if maxReconnectDelay <? reconnectDelay then maxReconnectDelay
        else reconnectDelay).

(** The counters of the client that the loop touches, and its local
    [reconnectDelay]. *)
Record loopState := {
  errors : Z;
  reconnects : Z;
  reconnectDelay : Z
}.

Definition add_uint64 (x delta : Z) : Z := (x + delta) mod 2 ^ 64.

(** One turn of [runLoop] that ends in the timer branch: [failed] says
    whether [connectAndStream] returned an error.  The result is the
    time waited and the state after the turn. *)
Definition runTurn (st : loopState) (failed : bool) : option (Z * loopState) :=
  let st1 :=
    if failed
    then {| errors := add_uint64 (errors st) 1;
            reconnects := add_uint64 (reconnects st) 1;
            reconnectDelay := reconnectDelay st |}
    else st in
  next ← nextDelay (reconnectDelay st1);
  Some (reconnectDelay st1,
        {| errors := errors st1; reconnects := reconnects st1;
           reconnectDelay := next |}).

(** [runLoop] over the outcomes of the successive connections, up to the
    turn in which the client is stopped: the times waited, in order, and
    the state reached. *)
Fixpoint runTurns (st : loopState) (outcomes : list bool)
    : option (list Z * loopState) :=
  match outcomes with
  | [] => Some ([], st)
  | failed :: rest =>
      '(waited, st1) ← runTurn st failed;
      '(waits, st2) ← runTurns st1 rest;
      Some (waited :: waits, st2)
  end.

Definition runLoop (outcomes : list bool) : option (list Z * loopState) :=
  runTurns {| errors := 0; reconnects := 0;
              reconnectDelay := initialReconnectDelay |} outcomes.

End client.

Module client_facts.
Import client.

(** The delay of the turn number [k], counted from 0. *)
Definition delay_of (k : nat) : Z :=
  Z.min (5 * time.Second * 2 ^ Z.of_nat k) (5 * time.Minute).

Lemma delay_of_bounds (k : nat) : 5 * time.Second <= delay_of k <= 5 * time.Minute.
Proof.
  unfold delay_of, time.Minute, time.Second.
  assert (1 <= 2 ^ Z.of_nat k) by (apply (Z.pow_le_mono_r 2 0); lia).
  lia.
Qed.

Lemma nextDelay_delay_of (k : nat) : nextDelay (delay_of k) = Some (delay_of (S k)).
Proof.
  pose proof (delay_of_bounds k) as Hb.
  unfold nextDelay, float64_exact.
  replace (Z.abs (delay_of k) <? 2 ^ 53) with true.
  2:{ symmetry. apply Z.ltb_lt. unfold time.Minute, time.Second in Hb.
      change (2 ^ 53) with 9007199254740992. lia. }
  cbn [mbind option_bind]. f_equal.
  unfold delay_of, maxReconnectDelay, reconnectBackoff, time.Minute,
    time.Second in *.
  rewrite Nat2Z.inj_succ, Z.pow_succ_r by lia.
  assert (1 <= 2 ^ Z.of_nat k) by (apply (Z.pow_le_mono_r 2 0); lia).
  destruct (_ <? _) eqn:Hcmp;
    [apply Z.ltb_lt in Hcmp|apply Z.ltb_ge in Hcmp]; lia.
Qed.

Definition failures (outcomes : list bool) : Z :=
  Z.of_nat (length (filter (λ failed, failed = true) outcomes)).

Lemma failures_cons (failed : bool) (outcomes : list bool) :
  failures (failed :: outcomes)
  = (if failed then 1 else 0) + failures outcomes.
Proof.
  unfold failures. destruct failed.
  - rewrite filter_cons_True by done. cbn [length]. lia.
  - rewrite filter_cons_False by done. lia.
Qed.

Lemma runTurns_closed (outcomes : list bool) :
  ∀ (k : nat) (e r : Z),
    0 <= e < 2 ^ 64 → 0 <= r < 2 ^ 64 →
    runTurns {| errors := e; reconnects := r; reconnectDelay := delay_of k |}
      outcomes
    = Some (delay_of <$> seq k (length outcomes),
            {| errors := (e + failures outcomes) mod 2 ^ 64;
               reconnects := (r + failures outcomes) mod 2 ^ 64;
               reconnectDelay := delay_of (k + length outcomes) |}).
Proof.
  induction outcomes as [|failed outcomes IH]; intros k e r He Hr.
  - cbn [runTurns length seq fmap list_fmap]. unfold failures.
    cbn [filter list_filter length Z.of_nat].
    rewrite !Z.add_0_r, !Z.mod_small, Nat.add_0_r by done. done.
  - cbn [runTurns]. unfold runTurn. cbv zeta.
    assert (Hnext : ∀ st, reconnectDelay st = delay_of k →
              nextDelay (reconnectDelay st) = Some (delay_of (S k)))
      by (intros st ->; apply nextDelay_delay_of).
    rewrite Hnext by (by destruct failed).
    cbn [mbind option_bind].
    assert (Hm : 0 < 2 ^ 64) by done.
    destruct failed; cbn [errors reconnects reconnectDelay].
    + rewrite IH by (unfold add_uint64; split; apply Z.mod_pos_bound; done).
      cbn [mbind option_bind length seq fmap list_fmap].
      rewrite failures_cons. unfold add_uint64.
      rewrite !Zplus_mod_idemp_l.
      do 3 f_equal; [f_equal; lia..|f_equal; lia].
    + rewrite IH by done.
      cbn [mbind option_bind length seq fmap list_fmap].
      rewrite failures_cons.
      do 3 f_equal; [f_equal; lia..|f_equal; lia].
Qed.

Lemma delay_of_mono (k : nat) : delay_of k <= delay_of (S k).
Proof.
  unfold delay_of. rewrite Nat2Z.inj_succ, Z.pow_succ_r by lia.
  assert (1 <= 2 ^ Z.of_nat k) by (apply (Z.pow_le_mono_r 2 0); lia).
  unfold time.Minute, time.Second. lia.
Qed.

End client_facts.

(** X28.  The reconnect delays.  Whatever the connections do, the client
    waits min(5 s * 2^k, 5 min) after its connection number [k] (counted
    from 0): 5 s, 10 s, 20 s, 40 s, 80 s, 160 s, and 5 min from then on.
    The delay depends on the number of connections only: it grows as well
    after a connection that ended without an error, and it is never set
    back.  The conversion to floating point that computes it is exact on
    every delay that occurs.  The two counters [errors] and [reconnects]
    both count the connections that ended in an error. *)
Theorem reconnect_delays (outcomes : list bool) :
  client.runLoop outcomes
  = Some (client_facts.delay_of <$> seq 0 (length outcomes),
          {| client.errors := client_facts.failures outcomes mod 2 ^ 64;
             client.reconnects := client_facts.failures outcomes mod 2 ^ 64;
             client.reconnectDelay := client_facts.delay_of (length outcomes) |})
  ∧ client_facts.delay_of <$> seq 0 7
    = [5 * time.Second; 10 * time.Second; 20 * time.Second; 40 * time.Second;
       80 * time.Second; 160 * time.Second; 5 * time.Minute]
  ∧ ∀ k, 5 * time.Second <= client_facts.delay_of k
         ∧ client_facts.delay_of k <= client_facts.delay_of (S k)
         ∧ client_facts.delay_of (S k) <= 5 * time.Minute
         ∧ ((6 <= k)%nat → client_facts.delay_of k = 5 * time.Minute).
Proof.
  split.
  { unfold client.runLoop.
    change client.initialReconnectDelay with (client_facts.delay_of 0).
    by rewrite client_facts.runTurns_closed. }
  split; [reflexivity|].
  intros k.
  pose proof (client_facts.delay_of_bounds k).
  pose proof (client_facts.delay_of_bounds (S k)).
  pose proof (client_facts.delay_of_mono k).
  do 3 (split; [lia|]).
  intros Hk. unfold client_facts.delay_of, time.Minute, time.Second.
  assert (2 ^ 6 <= 2 ^ Z.of_nat k) by (apply Z.pow_le_mono_r; lia).
  change (2 ^ 6) with 64 in *. lia.
Qed.

(** ** The detector workers of [main] (main.go) *)

Module workers.
Import models detector.

(** One turn of a worker's loop over the updates: the three detectors
    run one after the other on the same update, each reading the clock
    on its own.  The result is the hijack detector after the turn and
    the events handed to the event channel, in order. *)
Definition runDetectors (hijackDetector : HijackDetector.t)
    (t1 t2 t3 : Time) (update : BGPUpdate)
    : option (HijackDetector.t * emitted) :=
  blackhole ← BlackholeDetector.Process t1 update;
  '(hijackDetector, hijack) ← HijackDetector.Process hijackDetector t2 update;
  leak ← LeakDetector.Process t3 update;
  Some (hijackDetector, blackhole ++ hijack ++ leak).

End workers.

Module workers_facts.
Import models detector workers.

(** What every event of a turn on [update] carries. *)
Definition carries (update : BGPUpdate) (ev : BGPEvent) : Prop :=
  AffectedPrefix ev = Prefix update
  ∧ CountryCode ev = "" ∧ IsActive ev = true
  ∧ Details ev !! "collector" = Some (VString (Collector update))
  ∧ Details ev !! "peer_asn" = Some (VUint32 (PeerASN update))
  ∧ Details ev !! "as_path" = Some (VUint32s (ASPath update)).

Lemma blackhole_turn (now : Time) (update : BGPUpdate) :
  ∃ out, BlackholeDetector.Process now update = Some out
    ∧ (out = [] ∨ ∃ ev, out = [ev] ∧ EventType ev = "blackhole"
                        ∧ DetectedAt ev = now ∧ carries update ev)
    ∧ (Announcement update = false → out = []).
Proof.
  destruct (blackhole_facts.Process_cases now update) as (p & _ & ->).
  destruct (Announcement update); cbn [andb].
  - destruct (HasBlackholeCommunity _).
    + cbv zeta. eexists. split; [done|]. split; [|done].
      right. eexists. split; [done|]. by repeat split.
    + eexists. split; [done|]. split; [by left|done].
  - eexists. split; [done|]. split; [by left|done].
Qed.

Lemma hijack_turn (d : HijackDetector.t) (now : Time) (update : BGPUpdate) :
  ∃ d' out, HijackDetector.Process d now update = Some (d', out)
    ∧ (out = [] ∨ ∃ ev, out = [ev] ∧ EventType ev = "hijack"
                        ∧ DetectedAt ev = now ∧ carries update ev)
    ∧ (Announcement update = false → out = [] ∧ d' = d).
Proof.
  destruct (Announcement update) eqn:Hann.
  - destruct (hijack_facts.Process_total d now update)
      as (d' & out & HP & Hlen).
    exists d', out. split; [done|]. split; [|done].
    destruct out as [|ev [|ev' out]]; [by left| |cbn in Hlen; lia].
    right. exists ev. split; [done|].
    apply hijack_facts.Process_event_inv in HP
      as (_ & _ & _ & _ & _ & _ & _ & sev & _ & ->).
    by repeat split.
  - exists d, []. rewrite hijack_facts.Process_skip by (by left).
    split; [done|]. split; [by left|done].
Qed.

Lemma leak_turn (now : Time) (update : BGPUpdate) :
  ∃ out, LeakDetector.Process now update = Some out
    ∧ (out = [] ∨ ∃ ev, out = [ev] ∧ EventType ev = "leak"
                        ∧ DetectedAt ev = now ∧ carries update ev)
    ∧ (Announcement update = false → out = []).
Proof.
  destruct (leak_facts.leak_Process_cases now update)
    as (asn2 & asn1 & asn3 & _ & ->).
  destruct (Announcement update); cbn [negb orb].
  - destruct (_ || _).
    + eexists. split; [done|]. split; [by left|done].
    + eexists. split; [done|]. split; [|done].
      right. eexists. split; [done|]. by repeat split.
  - eexists. split; [done|]. split; [by left|done].
Qed.

End workers_facts.

(** X29.  One update through a worker.  The three detectors never panic
    on an update, and together they hand over at most three events: at
    most one of each type, in the order blackhole, hijack, leak, each
    stamped with the clock reading of its own detector.  Every event
    carries the update's prefix, collector, peer and path, has no country
    code yet and is active.  A withdrawal hands over nothing and leaves
    the hijack detector as it was. *)
Theorem worker_turn (hijackDetector : detector.HijackDetector.t)
    (t1 t2 t3 : models.Time) (update : models.BGPUpdate) :
  ∃ hijackDetector' events,
    workers.runDetectors hijackDetector t1 t2 t3 update
    = Some (hijackDetector', events)
    ∧ (models.EventType <$> events) `sublist_of` ["blackhole"; "hijack"; "leak"]
    ∧ Forall (workers_facts.carries update) events
    ∧ Forall (λ ev,
         models.DetectedAt ev
         = if String.eqb (models.EventType ev) "blackhole" then t1
           else if String.eqb (models.EventType ev) "hijack" then t2
           else t3) events
    ∧ (models.Announcement update = false →
       events = [] ∧ hijackDetector' = hijackDetector).
Proof.
  destruct (workers_facts.blackhole_turn t1 update) as (b & Hb & Hbc & Hbw).
  destruct (workers_facts.hijack_turn hijackDetector t2 update)
    as (d' & h & Hh & Hhc & Hhw).
  destruct (workers_facts.leak_turn t3 update) as (l & Hl & Hlc & Hlw).
  exists d', (b ++ h ++ l). unfold workers.runDetectors.
  rewrite Hb, Hh, Hl. cbn [mbind option_bind].
  split; [done|].
  split.
  { destruct Hbc as [->|(eb & -> & Hty1 & _)],
      Hhc as [->|(eh & -> & Hty2 & _)], Hlc as [->|(el & -> & Hty3 & _)];
      cbn [app fmap list_fmap]; rewrite ?Hty1, ?Hty2, ?Hty3;
      repeat first [apply sublist_nil | apply sublist_skip | apply sublist_cons]. }
  split.
  { rewrite !Forall_app.
    destruct Hbc as [->|(eb & -> & _ & _ & ?)],
      Hhc as [->|(eh & -> & _ & _ & ?)], Hlc as [->|(el & -> & _ & _ & ?)];
      repeat apply conj;
      first [apply Forall_nil_2 | constructor; [assumption|apply Forall_nil_2]]. }
  split.
  { rewrite !Forall_app.
    destruct Hbc as [->|(eb & -> & Hty1 & Ht1 & _)],
      Hhc as [->|(eh & -> & Hty2 & Ht2 & _)],
      Hlc as [->|(el & -> & Hty3 & Ht3 & _)];
      repeat apply conj;
      first [apply Forall_nil_2
            | constructor; [|apply Forall_nil_2];
              rewrite ?Hty1, ?Hty2, ?Hty3; assumption]. }
  intros Hw. destruct (Hhw Hw) as [-> ->]. by rewrite (Hbw Hw), (Hlw Hw).
Qed.

(** ** The batch writer (writer.go) *)

Module writer.
Import models.

Definition batchSize : Z := 50.

(** What wakes the [select] of [writerLoop]: an event taken from the
    queue, a tick of the ticker, or the close of [done], with the events
    that the queue still holds then. *)
Inductive wake :=
| Queued (event : BGPEvent)
| Tick
| Done (queue : list BGPEvent).

(** [batch = append(batch, event)] and the write of a batch that is
    full: the batches written, and the batch to go on with. *)
Definition enqueue (batch : list BGPEvent) (event : BGPEvent)
    : list (list BGPEvent) * list BGPEvent :=
  let batch := batch ++ [event] in
  if batchSize <=? Z.of_nat (length batch) then ([batch], []) else ([], batch).

(** The [done] branch: the rest of the queue and the last batch. *)
Fixpoint flush (queue : list BGPEvent) (batch : list BGPEvent)
    : list (list BGPEvent) :=
  match queue with
  | [] => if 0 <? Z.of_nat (length batch) then [batch] else []
  | event :: queue =>
      let '(written, batch) := enqueue batch event in
      written ++ flush queue batch
  end.

(** The batches handed to [writeBatch], in order. *)
Fixpoint writerTurns (wakes : list wake) (batch : list BGPEvent)
    : list (list BGPEvent) :=
  match wakes with
  | [] => []
  | Queued event :: wakes =>
      let '(written, batch) := enqueue batch event in
      written ++ writerTurns wakes batch
  | Tick :: wakes =>
      if 0 <? Z.of_nat (length batch) then batch :: writerTurns wakes []
      else writerTurns wakes batch
  | Done queue :: _ => flush queue batch
  end.

Definition writerLoop (wakes : list wake) : list (list BGPEvent) :=
  writerTurns wakes [].

End writer.

Module writer_facts.
Import models writer.

(** The events that the loop took from the queue, in order. *)
Fixpoint received (wakes : list wake) : list BGPEvent :=
  match wakes with
  | [] => []
  | Queued event :: wakes => event :: received wakes
  | Tick :: wakes => received wakes
  | Done queue :: _ => queue
  end.

Fixpoint stopped (wakes : list wake) : bool :=
  match wakes with
  | [] => false
  | Done _ :: _ => true
  | _ :: wakes => stopped wakes
  end.

Definition batch_ok (batch : list BGPEvent) : Prop :=
  (1 <= length batch <= 50)%nat.

Lemma enqueue_cases (batch : list BGPEvent) (event : BGPEvent) :
  (length batch < 50)%nat →
  (enqueue batch event = ([], batch ++ [event])
   ∧ (length (batch ++ [event]) < 50)%nat)
  ∨ (enqueue batch event = ([batch ++ [event]], [])
     ∧ length (batch ++ [event]) = 50%nat).
Proof.
  intros Hlen. unfold enqueue, batchSize. cbv zeta.
  pose proof (length_app batch [event]) as Happ. cbn [length] in Happ.
  destruct (50 <=? _) eqn:Hfull;
    [apply Z.leb_le in Hfull; right|apply Z.leb_gt in Hfull; left];
    (split; [done|lia]).
Qed.

Lemma flush_spec (queue : list BGPEvent) :
  ∀ batch,
    (length batch < 50)%nat →
    Forall batch_ok (flush queue batch)
    ∧ concat (flush queue batch) = batch ++ queue.
Proof.
  induction queue as [|event queue IH]; intros batch Hlen; cbn [flush].
  - destruct batch as [|e batch].
    + cbn. split; [constructor|done].
    + replace (0 <? Z.of_nat (length (e :: batch))) with true
        by (symmetry; apply Z.ltb_lt; cbn [length]; lia).
      split.
      * constructor; [|constructor]. unfold batch_ok. cbn [length] in *. lia.
      * cbn [concat]. by rewrite !app_nil_r.
  - destruct (enqueue_cases batch event Hlen) as [[-> Hl]|[-> Hl]].
    + destruct (IH _ Hl) as [Hok Hcat]. cbn [app].
      split; [done|]. by rewrite Hcat, <- app_assoc.
    + destruct (IH [] ltac:(cbn; lia)) as [Hok Hcat]. cbn [app].
      split.
      * constructor; [unfold batch_ok; lia|done].
      * cbn [concat]. by rewrite Hcat, <- app_assoc.
Qed.

Lemma writerTurns_spec (wakes : list wake) :
  ∀ batch,
    (length batch < 50)%nat →
    Forall batch_ok (writerTurns wakes batch)
    ∧ ∃ pending,
        batch ++ received wakes = concat (writerTurns wakes batch) ++ pending
        ∧ (length pending < 50)%nat
        ∧ (stopped wakes = true → pending = []).
Proof.
  induction wakes as [|[event| |queue] wakes IH]; intros batch Hlen;
    cbn [writerTurns received stopped].
  - split; [constructor|]. exists batch. by rewrite app_nil_r.
  - destruct (enqueue_cases batch event Hlen) as [[-> Hl]|[-> Hl]].
    + destruct (IH _ Hl) as (Hok & pending & Hcat & Hp & Hstop). cbn [app].
      split; [done|]. exists pending.
      split; [|done]. by rewrite <- Hcat, <- app_assoc.
    + destruct (IH [] ltac:(cbn; lia)) as (Hok & pending & Hcat & Hp & Hstop).
      cbn [app]. split.
      * constructor; [unfold batch_ok; lia|done].
      * exists pending. split; [|done]. cbn [concat].
        rewrite <- !app_assoc. cbn [app] in Hcat. by rewrite <- Hcat.
  - destruct batch as [|e batch].
    + by apply IH.
    + replace (0 <? Z.of_nat (length (e :: batch))) with true
        by (symmetry; apply Z.ltb_lt; cbn [length]; lia).
      destruct (IH [] ltac:(cbn; lia)) as (Hok & pending & Hcat & Hp & Hstop).
      split.
      * constructor; [|done]. unfold batch_ok. cbn [length] in *. lia.
      * exists pending. split; [|done]. cbn [concat].
        rewrite <- !app_assoc. cbn [app] in Hcat. by rewrite <- Hcat.
  - destruct (flush_spec queue batch Hlen) as [Hok Hcat].
    split; [done|]. exists []. split; [by rewrite app_nil_r, Hcat|].
    split; [cbn [length]; lia|done].
Qed.

End writer_facts.

(** X30.  The batches of the writer.  However events, ticks and the stop
    arrive, every batch handed to [writeBatch] holds at least one and at
    most 50 events; the batches, one after the other, are the events that
    the loop took from the queue, in their order, none twice; what is not
    yet in a batch is fewer than 50 events, the latest ones; and once the
    writer has been stopped nothing is left over: every event that was in
    the queue has been handed over. *)
Theorem writerLoop_batches (wakes : list writer.wake) :
  let batches := writer.writerLoop wakes in
  Forall (λ batch, (1 <= length batch <= 50)%nat) batches
  ∧ ∃ pending,
      writer_facts.received wakes = concat batches ++ pending
      ∧ (length pending < 50)%nat
      ∧ (writer_facts.stopped wakes = true → pending = []).
Proof.
  intros batches.
  destruct (writer_facts.writerTurns_spec wakes [] ltac:(cbn; lia))
    as (Hok & pending & Hcat & Hp & Hstop).
  split; [done|]. by exists pending.
Qed.
